(** * MixMatch training step: a shallow embedding of [mixmatch.py]

    The Python file builds one TensorFlow training step.  It is embedded
    here as Rocq functions over nested lists of scalars:

    - a rank-2 tensor ([batch x nclass]) is a list of rows, a rank-3
      tensor a list of rank-2 tensors;
    - the scalar type is a parameter ([Scalar]): instantiated with [R] it
      gives the values the step computes (32-bit floats are idealised as
      real numbers), instantiated with dual numbers it gives values
      together with their derivative along a direction of the classifier
      parameters, which is what [tf.stop_gradient] acts on;
    - Python exceptions and the graph-wide [UPDATE_OPS] collection are
      threaded through a small state-and-error monad ([build]). *)

From Stdlib Require Import Reals Lra Lia String Ascii ZArith Bool Arith List DecimalNat.
Import ListNotations.

Set Implicit Arguments.

(** ** Exceptions and the graph-construction monad *)

Inductive exn : Type :=
| TypeError
| ValueError
| ZeroDivisionError
| IndexError.

Inductive result (A : Type) : Type :=
| Ok (a : A)
| Err (e : exn).

Arguments Ok {A} a.
Arguments Err {A} e.

(** The part of the default graph the step construction reads and writes:
    the [tf.GraphKeys.UPDATE_OPS] collection, holding operations by
    identity, and the number of operations created so far, from which a
    new operation takes its identity. *)
Record graph : Type := Graph {
  update_ops : list nat;
  next_op : nat }.

Definition build (A : Type) : Type := graph -> result (A * graph).

Definition ret {A} (a : A) : build A := fun g => Ok (a, g).

Definition bind {A B} (m : build A) (k : A -> build B) : build B :=
  fun g => match m g with
           | Ok (a, g') => k a g'
           | Err e => Err e
           end.

Definition raise {A} (e : exn) : build A := fun _ => Err e.

Definition lift {A} (r : result A) : build A :=
  fun g => match r with Ok a => Ok (a, g) | Err e => Err e end.

Declare Scope build_scope.
Delimit Scope build_scope with build.
Notation "x <- m ;; k" := (bind m (fun x => k))
  (at level 61, m at next level, right associativity) : build_scope.
Open Scope build_scope.

(** A list comprehension whose body has effects: left to right. *)
Fixpoint mapM {A B} (f : A -> build B) (l : list A) : build (list B) :=
  match l with
  | [] => ret []
  | a :: l' => b <- f a ;; bs <- mapM f l' ;; ret (b :: bs)
  end.

(** ** Scalars *)

Class Scalar (S : Type) : Type := {
  of_R : R -> S;
  s_add : S -> S -> S;
  s_sub : S -> S -> S;
  s_mul : S -> S -> S;
  s_div : S -> S -> S;
  s_exp : S -> S;
  s_log : S -> S;
  s_pow : S -> S -> S;
  s_stop : S -> S }.

(** [tf.pow] on reals.  The bases met in this file are probabilities,
    so only [0 <= x] matters; at [x = 0] the power is [0] for a positive
    exponent and [1] for exponent [0], where [Rpower] alone would give
    [1] in both cases.  At [x = 0] with a negative exponent [tf.pow]
    gives an infinity, which the reals do not have: nothing below is
    stated about that case. *)
Definition pow_R (x y : R) : R :=
  if Req_dec_T x 0 then (if Req_dec_T y 0 then 1 else 0) else Rpower x y.

#[export] Instance Scalar_R : Scalar R := {
  of_R := fun x => x;
  s_add := Rplus;
  s_sub := Rminus;
  s_mul := Rmult;
  s_div := Rdiv;
  s_exp := exp;
  s_log := ln;
  s_pow := pow_R;
  s_stop := fun x => x }.

(** Dual numbers: a value and its derivative along one direction of the
    classifier parameters (forward-mode differentiation).  A constant has
    derivative 0, and [tf.stop_gradient] keeps the value and makes the
    derivative 0. *)
Definition dual : Type := (R * R)%type.

Definition primal (x : dual) : R := fst x.
Definition tangent (x : dual) : R := snd x.

#[export] Instance Scalar_dual : Scalar dual := {
  of_R := fun x => (x, 0%R);
  s_add := fun a b => (primal a + primal b, tangent a + tangent b)%R;
  s_sub := fun a b => (primal a - primal b, tangent a - tangent b)%R;
  s_mul := fun a b =>
    (primal a * primal b, tangent a * primal b + primal a * tangent b)%R;
  s_div := fun a b =>
    (primal a / primal b,
     (tangent a * primal b - primal a * tangent b) / (primal b * primal b))%R;
  s_exp := fun a => (exp (primal a), tangent a * exp (primal a))%R;
  s_log := fun a => (ln (primal a), tangent a / primal a)%R;
  s_pow := fun a b =>
    (pow_R (primal a) (primal b),
     pow_R (primal a) (primal b)
     * (tangent b * ln (primal a) + primal b * tangent a / primal a))%R;
  s_stop := fun a => (primal a, 0%R) }.

(** ** List helpers used by the tensor operations *)

Section Lists.
Context {A B C : Type}.

Definition map2 (f : A -> B -> C) (l1 : list A) (l2 : list B) : list C :=
  map (fun p => f (fst p) (snd p)) (combine l1 l2).

(** [chunks n k l]: the first [n] consecutive blocks of [k] elements. *)
Fixpoint chunks (n k : nat) (l : list A) : list (list A) :=
  match n with
  | O => []
  | S n' => firstn k l :: chunks n' k (skipn k l)
  end.
End Lists.

(** ** Tensor operations (the TensorFlow calls of the file) *)

Abbreviation tensor1 S := (list S) (only parsing).
Abbreviation tensor2 S := (list (list S)) (only parsing).
Abbreviation tensor3 S := (list (list (list S))) (only parsing).

Section Tensors.
Context {S : Type} `{Scalar S}.

Definition s_zero : S := of_R 0%R.
Definition s_neg (x : S) : S := s_sub s_zero x.
Definition of_nat (n : nat) : S := of_R (INR n).

Definition sum_list (l : list S) : S := fold_right s_add s_zero l.

(** Rows of one width. *)
Definition same_width {Y : Type} (rows : list (list Y)) : bool :=
  match rows with
  | [] => true
  | r :: rs => forallb (fun r' => (length r' =? length r)%nat) rs
  end.

(** [tf.concat(ts, 0)] of rank-2 tensors: refuses an empty list of
    tensors, and tensors whose rows differ in width. *)
Definition tf_concat {Y : Type} (ts : list (list (list Y)))
    : result (list (list Y)) :=
  match ts with
  | [] => Err ValueError
  | _ => if same_width (concat ts) then Ok (concat ts) else Err ValueError
  end.

(** [tf.nn.softmax] over the last axis. *)
Definition softmax_row (z : tensor1 S) : tensor1 S :=
  let e := map s_exp z in
  map (fun x => s_div x (sum_list e)) e.

Definition tf_softmax (t : tensor2 S) : tensor2 S := map softmax_row t.

(** [tf.reshape(t, [n, -1, c])] of a rank-2 tensor, row-major: the
    elements are regrouped in rows of [c], the rows in [n] equal groups.
    It fails when the missing dimension cannot be inferred. *)
Definition tf_reshape3 (n c : nat) (t : tensor2 S) : result (tensor3 S) :=
  let flat := concat t in
  if (n * c =? 0)%nat then Err ValueError
  else if (length flat mod (n * c) =? 0)%nat then
    let b := (length flat / (n * c))%nat in
    Ok (chunks n b (chunks (n * b) c flat))
  else Err ValueError.

Definition tf_add2 (a b : tensor2 S) : tensor2 S := map2 (map2 s_add) a b.

(** [tf.reduce_mean(t, axis=0)] of a rank-3 tensor. *)
Definition tf_reduce_mean0 (t : tensor3 S) : tensor2 S :=
  match t with
  | [] => []
  | g :: gs =>
      map (map (fun s => s_div s (of_nat (length t)))) (fold_left tf_add2 gs g)
  end.

(** [tf.pow(t, e)] with a scalar exponent. *)
Definition tf_pow (t : tensor2 S) (e : S) : tensor2 S :=
  map (map (fun x => s_pow x e)) t.

(** [tf.reduce_sum(t, axis=1, keep_dims=True)]: shape [[B, 1]]. *)
Definition tf_reduce_sum1_keep (t : tensor2 S) : tensor2 S :=
  map (fun r => [sum_list r]) t.

(** [a / b] where [b] has one column or as many as [a]. *)
Definition tf_div (a b : tensor2 S) : tensor2 S :=
  map2 (fun ra rb => match rb with
                     | [s] => map (fun x => s_div x s) ra
                     | _ => map2 s_div ra rb
                     end) a b.

Definition tf_sub (a b : tensor2 S) : tensor2 S := map2 (map2 s_sub) a b.

Definition tf_square (t : tensor2 S) : tensor2 S := map (map (fun x => s_mul x x)) t.

(** [tf.reduce_mean] with no axis: over every element. *)
Definition tf_reduce_mean1 (t : tensor1 S) : S :=
  s_div (sum_list t) (of_nat (length t)).

Definition tf_reduce_mean2 (t : tensor2 S) : S := tf_reduce_mean1 (concat t).

(** [tf.nn.softmax_cross_entropy_with_logits_v2]: one value per example,
    computed from the log-softmax of the logits. *)
Definition log_softmax_row (z : tensor1 S) : tensor1 S :=
  let lse := s_log (sum_list (map s_exp z)) in
  map (fun x => s_sub x lse) z.

Definition tf_softmax_cross_entropy (labels logits : tensor2 S) : tensor1 S :=
  map2 (fun l z => s_neg (sum_list (map2 s_mul l (log_softmax_row z)))) labels logits.

(** [tf.one_hot(l, depth)] for integer labels: an index outside
    [0, depth) gives a row of zeros. *)
Definition one_hot_row (depth : nat) (l : Z) : tensor1 S :=
  map (fun c => if (Z.of_nat c =? l)%Z then of_R 1%R else of_R 0%R) (seq 0 depth).

Definition tf_one_hot (l : list Z) (depth : nat) : tensor2 S := map (one_hot_row depth) l.

Definition tf_stop_gradient (t : tensor2 S) : tensor2 S := map (map s_stop) t.

(** [tf.clip_by_value(x, lo, hi)] on a real scalar. *)
Definition tf_clip_by_value (x lo hi : R) : R := Rmin (Rmax x lo) hi.
End Tensors.

(** Python's [a / b] on floats. *)
Definition py_div (a b : R) : result R :=
  if Req_dec_T b 0 then Err ZeroDivisionError else Ok (a / b)%R.

(** ** The label guesser: [MixMatch.guess_label] (lines 56-66) *)

Section GuessLabel.
Context {S : Type} `{Scalar S}.
Variable Batch : Type.      (* a batch of images fed to the classifier *)
Variable nclass : nat.      (* self.nclass *)

Record guess : Type := Guess {
  p_target : tensor2 S;
  p_model : tensor2 S }.

(** Lines 64-65: the target distribution from the averaged prediction. *)
Definition sharpen (p_model_y : tensor2 S) (T : R) : result (tensor2 S) :=
  match py_div 1 T with
  | Err e => Err e
  | Ok e =>
      let p_target := tf_pow p_model_y (of_R e) in
      Ok (tf_div p_target (tf_reduce_sum1_keep p_target))
  end.

Definition guess_label (y : list Batch)
    (classifier : Batch -> bool -> build (tensor2 S)) (T : R) : build guess :=
  logits_y <- mapM (fun yi => classifier yi true) y ;;
  logits_y <- lift (tf_concat logits_y) ;;
  p_model_y <- lift (tf_reshape3 (length y) nclass (tf_softmax logits_y)) ;;
  let p_model_y := tf_reduce_mean0 p_model_y in
  p_target <- lift (sharpen p_model_y T) ;;
  ret {| p_target := p_target; p_model := p_model_y |}.
End GuessLabel.

Arguments guess S : clear implicits.

(** ** The interleaving scheduler: [layers.interleave] *)

Section Interleave.
Context {A : Type}.

(** Cut one batch into consecutive groups of the given sizes. *)
Fixpoint split_groups (sizes : list nat) (v : list A) : list (list A) :=
  match sizes with
  | [] => []
  | s :: ss => firstn s v :: split_groups ss (skipn s v)
  end.

(** Group [p] of stream [i]. *)
Definition cell (G : list (list (list A))) (i p : nat) : list A :=
  nth p (nth i G []) [].

(** Stream 0 gives its group [i] to stream [i] and takes group [i] of
    stream [i] in return, for every [i >= 1]; every other group stays. *)
Definition exchange (G : list (list (list A))) : list (list (list A)) :=
  map (fun i =>
         map (fun p =>
                if (i =? 0)%nat then cell G p p
                else if (p =? i)%nat then cell G 0 i
                else cell G i p)
             (seq 0 (length (nth i G []))))
      (seq 0 (length G)).

(** The group sizes for [batch] examples and [nu + 1] streams:
    [batch / (nu + 1)] each, the remainder spread one by one over the
    last groups. *)
Definition interleave_groups (batch nu : nat) : list nat :=
  map (fun p => if (nu + 1 - batch mod (nu + 1) <=? p)%nat
                then (batch / (nu + 1) + 1)%nat
                else (batch / (nu + 1))%nat)
      (seq 0 (nu + 1)).

(** Interleaving with given group sizes: every stream is cut into the
    groups, the groups are exchanged, every stream is glued back. *)
Definition interleave_with (sizes : list nat) (xy : list (list A)) : list (list A) :=
  map (@concat A) (exchange (map (split_groups sizes) xy)).

(** Modelled from the spec: [layers.interleave] of [libml/layers.py],
    which is not among the sources; [mixmatch.py] only calls it, at lines
    103 and 109, with a list of [nu + 1] tensors and [batch].  Section
    4.4 of the specification gives its contract, not its construction:
    [nu + 1] batches of [batch] examples in, as many batches out, the
    examples reordered between the streams by groups, stream 0 keeping
    the first position.  The construction taken here is the exchange of
    groups between stream 0 and the others ([exchange]) with the group
    sizes of [interleave_groups]; what is proved about it holds for
    every choice of group sizes that add up to [batch].  The step always
    passes at least one stream. *)
Definition interleave (xy : list (list A)) (batch : nat) : list (list A) :=
  interleave_with (interleave_groups batch (length xy - 1)) xy.
End Interleave.

(** ** Keyword arguments *)

Inductive pyval : Type :=
| PyInt (z : Z)
| PyFloat (r : R)
| PyStr (s : string).

Definition kwargs_t : Type := list (string * pyval).

Definition has_key (k : string) (kw : kwargs_t) : bool :=
  existsb (fun e => String.eqb k (fst e)) kw.

(** A call [f(a, b, name=v, **kw)] raises [TypeError] when [kw] binds a
    name the call already binds. *)
Definition call_with_kwargs {A} (bound : list string) (kw : kwargs_t)
    (body : build A) : build A :=
  if existsb (fun k => has_key k kw) bound then raise TypeError else body.

(** ** Variables and the operations grouped in [train_op] *)

(** ['kernel' in v.name] *)
Fixpoint contains (sub s : string) : bool :=
  if String.prefix sub s then true
  else match s with
       | EmptyString => false
       | String _ s' => contains sub s'
       end.

Section Ops.
Context {S : Type}.

Inductive op : Type :=
| UpdateOp (id : nat)                              (* an element of UPDATE_OPS *)
| EmaApply (decay : R) (vars : list string)        (* ema.apply(vars) *)
| PMovingAverageUpdate (name : string) (v : list (list S))
| PDataUpdate (lx : list (list S))
| Assign (v : string) (factor : R)                 (* tf.assign(v, v * factor) *)
| Minimize (lr : R) (loss : S).                    (* AdamOptimizer(lr).minimize(loss) *)

Definition update_op_ids (ops : list op) : list nat :=
  flat_map (fun o => match o with UpdateOp id => [id] | _ => [] end) ops.

Definition minimized (ops : list op) : list S :=
  flat_map (fun o => match o with Minimize _ l => [l] | _ => [] end) ops.

Definition assigns (ops : list op) : list (string * R) :=
  flat_map (fun o => match o with Assign v f => [(v, f)] | _ => [] end) ops.
End Ops.

Arguments op S : clear implicits.

(** The values of the variables, by name; a tensor value is kept flat. *)
Definition store : Type := string -> list R.

Definition run_assign (st : store) (a : string * R) : store :=
  fun w => if String.eqb w (fst a) then map (fun x => (x * snd a)%R) (st (fst a)) else st w.

Definition run_assigns (l : list (string * R)) (st : store) : store :=
  fold_left run_assign l st.

(** ** The training step: [MixMatch.model] (lines 68-138 of [mixmatch.py]) *)

Record config : Type := Config {
  batch : Z;
  lr : R;
  wd : R;
  ema : R;
  beta : R;
  w_match : R;
  warmup_kimg : Z;
  nu : Z;
  mixmode : string;
  dbuf : Z;
  kwargs : kwargs_t }.

Section Model.
Context {S : Type} `{Scalar S}.
Variable Img : Type.

Definition images : Type := list Img.
Definition augmenter : Type :=
  list images -> list (tensor2 S) -> list R -> list images * list (tensor2 S).

(** What the step takes from [self] and from [libml]. *)
Variable nclass : nat.                                        (* self.nclass *)
Variable self_classifier : kwargs_t -> bool -> images -> tensor2 S.
Variable n_update_ops : nat.
Variable MixMode : string -> result augmenter.                (* layers.MixMode *)
Variable model_vars : option string -> list string.          (* utils.model_vars *)
Variable p_data_has_update : bool.                            (* PData.has_update *)

(** The values fed to the placeholders and the step counter. *)
Record feeds : Type := Feeds {
  xt_in : images;             (* [batch] images *)
  x_in : images;              (* any number of images, for evaluation *)
  y_in : list images;         (* [batch, nu] images *)
  l_in : list Z;              (* [batch] labels *)
  step : Z }.                 (* self.step *)

(** Modelled from the spec: the side effect of
    [models.MultiModel.classifier] ([libml/models.py], not among the
    sources).  Section 6 gives its interface, logits of shape
    [[batch, nclass]] for a batch of images; sections 4.5 and 9 give its
    side effect: a forward pass in training mode creates its update
    operations, [n_update_ops] of them, and registers them in the
    graph-wide collection. *)
Definition forward_pass (kw : kwargs_t) (x : images) (training : bool)
    : build (tensor2 S) :=
  fun g =>
    let ops := if training then seq (next_op g) n_update_ops else [] in
    Ok (self_classifier kw training x,
        {| update_ops := update_ops g ++ ops;
           next_op := next_op g + length ops |}).

(** Line 83: [classifier = lambda x, **kw: self.classifier(x, **kw,
    **kwargs).logits], called with [training=True] by the guesser and by
    the step. *)
Definition classifier (kw : kwargs_t) (x : images) (training : bool)
    : build (tensor2 S) :=
  call_with_kwargs ["training"%string] kw (forward_pass kw x training).

(** [tf.get_collection(tf.GraphKeys.UPDATE_OPS)] *)
Definition get_update_ops : build (list nat) := fun g => Ok (update_ops g, g).

(** [tf.placeholder(dtype, shape)] refuses a negative dimension. *)
Definition tf_placeholder (shape : list Z) : result unit :=
  if forallb (fun d => (0 <=? d)%Z) shape then Ok tt else Err ValueError.

(** [tf.transpose(y_in, [1, 0, 2, 3, 4])] where [y_in] has [n] columns. *)
Fixpoint transpose {X} (n : nat) (rows : list (list X)) : list (list X) :=
  match n with
  | O => []
  | Datatypes.S n' => flat_map (firstn 1) rows :: transpose n' (map (@tl X) rows)
  end.

(** [tf.split(y, n)]: [n] equal parts along the first axis. *)
Definition tf_split {X} (y : list X) (n : nat) : result (list (list X)) :=
  if (n =? 0)%nat then Err ValueError
  else if (length y mod n =? 0)%nat then Ok (chunks n (length y / n) y)
  else Err ValueError.

(** [l[0]] *)
Definition head_or_raise {X} (l : list X) : result X :=
  match l with
  | [] => Err IndexError
  | x :: _ => Ok x
  end.

(** Line 81: the matching-loss weight at the current step.  For
    [warmup_kimg = 0] the code divides by zero in 32-bit floats and gets
    an infinity or a NaN, which the reals do not have: every statement
    below about this weight takes [warmup_kimg <> 0]. *)
Definition ramped_w_match (w_match : R) (step warmup_kimg : Z) : R :=
  (w_match * tf_clip_by_value (IZR step / IZR (Z.shiftl warmup_kimg 10)) 0 1)%R.

(** Line 129: the weight-decay assignments. *)
Definition weight_decay_ops (wd : R) : list (op S) :=
  map (fun v => Assign v (1 - wd)%R)
      (filter (contains "kernel") (model_vars (Some "classify"%string))).

(** Lines 97-103: the mixed labels and the interleaved input batches. *)
Record mixed : Type := Mixed {
  lx : tensor2 S;
  labels_x : tensor2 S;
  labels_y : tensor2 S;
  batches : list images }.

Definition mix (cfg : config) (feed : feeds) (augment : augmenter)
    (ys : list images) (ly : tensor2 S) : result mixed :=
  let lx := tf_one_hot (l_in feed) nclass in
  let (xy, labels_xy) :=
    augment (xt_in feed :: ys) (lx :: repeat ly (Z.to_nat (nu cfg)))
            [beta cfg; beta cfg] in
  match head_or_raise xy with
  | Err e => Err e
  | Ok x =>
      let y := tl xy in
      match head_or_raise labels_xy with
      | Err e => Err e
      | Ok labels_x =>
          match tf_concat (tl labels_xy) with
          | Err e => Err e
          | Ok labels_y =>
              Ok {| lx := lx; labels_x := labels_x; labels_y := labels_y;
                    batches := interleave (x :: y) (Z.to_nat (batch cfg)) |}
          end
      end
  end.

(** Lines 104-111: the forward passes and the per-stream logits. *)
Record streams : Type := Streams {
  logits_x : tensor2 S;
  logits_y : tensor2 S;
  bn_ops : list nat }.            (* post_ops as line 106 leaves it *)

Definition passes (cfg : config) (m : mixed) : build streams :=
  skip_ops <- get_update_ops ;;
  batch0 <- lift (head_or_raise (batches m)) ;;
  logits0 <- classifier (kwargs cfg) batch0 true ;;
  collection <- get_update_ops ;;
  let post_ops := filter (fun v => negb (existsb (Nat.eqb v) skip_ops)) collection in
  logits' <- mapM (fun batchi => classifier (kwargs cfg) batchi true) (tl (batches m)) ;;
  let logits := interleave (logits0 :: logits') (Z.to_nat (batch cfg)) in
  logits_x <- lift (head_or_raise logits) ;;
  logits_y <- lift (tf_concat (tl logits)) ;;
  ret {| logits_x := logits_x; logits_y := logits_y; bn_ops := post_ops |}.

(** Lines 113-116. *)
Definition loss_xe (m : mixed) (s : streams) : S :=
  tf_reduce_mean1 (tf_softmax_cross_entropy (labels_x m) (logits_x s)).

Definition loss_l2u (m : mixed) (s : streams) : S :=
  tf_reduce_mean2 (tf_square (tf_sub (labels_y m) (tf_softmax (logits_y s)))).

(** Line 131: [tf.train.AdamOptimizer(lr).minimize(loss)] refuses a
    graph without trainable variables, which are what
    [utils.model_vars()] lists.  The loss is taken to depend on one of
    them, as it does with the classifiers of the library. *)
Definition tf_minimize (trainable : list string) : result unit :=
  match trainable with
  | [] => Err ValueError
  | _ :: _ => Ok tt
  end.

(** Lines 121-133: the operations [train_op] runs. *)
Definition train_ops (cfg : config) (feed : feeds) (g : guess S)
    (m : mixed) (s : streams) : list (op S) :=
  let wd := (wd cfg * lr cfg)%R in
  let w_match := ramped_w_match (w_match cfg) (step feed) (warmup_kimg cfg) in
  let post_ops :=
    map UpdateOp (bn_ops s)
    ++ [EmaApply (ema cfg) (model_vars None);
        PMovingAverageUpdate "p_model" (p_model g);
        PMovingAverageUpdate "p_target" (p_target g)]
    ++ (if p_data_has_update then [PDataUpdate (lx m)] else [])
    ++ weight_decay_ops wd in
  Minimize (lr cfg) (s_add (loss_xe m s) (s_mul (of_R w_match) (loss_l2u m s)))
  :: post_ops.

(** What the step keeps of the returned dictionary: [train_op].  The
    placeholders are the [feeds]; of [classify_raw] and [classify_op],
    the evaluation heads of lines 137-138, the step keeps nothing but
    the effect of building them.  The summaries of lines 117-119 only
    write to the summary collection. *)
Record step_ops : Type := StepOps {
  train_op : list (op S) }.

Section WithGuesser.
(** [self.guess_label], a method: the step calls whatever the object
    provides. *)
Variable self_guess_label :
  list images -> (images -> bool -> build (tensor2 S)) -> R -> build (guess S).

(** Lines 72-77 are the placeholders, line 82 the mixing function, lines
    93-94 the guess, line 131 the optimizer, lines 137-138 the two
    evaluation heads: forward passes over [x_in] with [training=False],
    the second one with a [getter] keyword as well.  The trackers of
    lines 86-90 ([PMovingAverage], [PData]) are library objects whose
    construction is taken to succeed; they appear in the step through
    their update operations only. *)
Definition model_with (cfg : config) (feed : feeds) : build step_ops :=
  _ <- lift (tf_placeholder [batch cfg]) ;;
  _ <- lift (tf_placeholder [batch cfg; nu cfg]) ;;
  augment <- lift (MixMode (mixmode cfg)) ;;
  let n := Z.to_nat (nu cfg) in
  let y := concat (transpose n (y_in feed)) in
  ys <- lift (tf_split y n) ;;
  guess <- call_with_kwargs ["self"; "y"; "classifier"; "T"]%string (kwargs cfg)
             (self_guess_label ys (classifier (kwargs cfg)) (1 / 2)%R) ;;
  let ly := tf_stop_gradient (p_target guess) in
  m <- lift (mix cfg feed augment ys ly) ;;
  s <- passes cfg m ;;
  _ <- lift (tf_minimize (model_vars None)) ;;
  _ <- classifier (kwargs cfg) (x_in feed) false ;;
  _ <- call_with_kwargs ["getter"]%string (kwargs cfg)
         (classifier (kwargs cfg) (x_in feed) false) ;;
  ret {| train_op := train_ops cfg feed guess m s |}.

(** The intermediate values of a step that is built from graph [g0] and
    leaves graph [g1]: the mixing function, the views, the guess with the
    graph [ga] after it, the mixed labels and batches, the logits. *)
Definition stages (cfg : config) (feed : feeds) (g0 g1 : graph)
    (augment : augmenter) (ys : list images) (guess : guess S) (ga : graph)
    (m : mixed) (s : streams) : Prop :=
  MixMode (mixmode cfg) = Ok augment
  /\ tf_split (concat (transpose (Z.to_nat (nu cfg)) (y_in feed)))
              (Z.to_nat (nu cfg)) = Ok ys
  /\ existsb (fun k => has_key k (kwargs cfg))
             ["self"; "y"; "classifier"; "T"]%string = false
  /\ self_guess_label ys (classifier (kwargs cfg)) (1 / 2)%R g0 = Ok (guess, ga)
  /\ mix cfg feed augment ys (tf_stop_gradient (p_target guess)) = Ok m
  /\ passes cfg m ga = Ok (s, g1).
End WithGuesser.

Definition model (cfg : config) (feed : feeds) : build step_ops :=
  model_with (guess_label nclass) cfg feed.
End Model.

(** ** Predicates used in the statements *)

Open Scope R_scope.

(** A probability vector: non-negative entries that add up to 1. *)
Definition prob_vector (p : tensor1 R) : Prop :=
  Forall (fun x => (0 <= x)%R) p /\ sum_list p = 1%R.

(** A rank-2 tensor of shape [[b, c]]. *)
Definition shape2 {X} (b c : nat) (t : list (list X)) : Prop :=
  length t = b /\ Forall (fun r => length r = c) t.

(** Entry [(b, c)] of a rank-2 real tensor. *)
Definition entry (t : tensor2 R) (b c : nat) : R := nth c (nth b t []) 0%R.

Section Passes.
Variable n_update_ops : nat.

(** The graph after one forward pass in training mode. *)
Definition after_pass (g : graph) : graph :=
  {| update_ops := update_ops g ++ seq (next_op g) n_update_ops;
     next_op := next_op g + n_update_ops |}.

(** The graph after [k] such passes. *)
Fixpoint after_passes (k : nat) (g : graph) : graph :=
  match k with
  | O => g
  | Datatypes.S k' => after_passes k' (after_pass g)
  end.

End Passes.

(** A grid: [n] streams of [n] groups, group [p] of every stream of size
    [nth p sizes 0]. *)
Definition grid {A : Type} (sizes : list nat) (G : list (list (list A))) : Prop :=
  length G = length sizes
  /\ Forall (fun row => map (@length A) row = sizes) G.

(** Operations are created with increasing identities: everything in the
    collection is older than the next operation. *)
Definition graph_wf (g : graph) : Prop :=
  Forall (fun id => (id < next_op g)%nat) (update_ops g).

(** [x] is the value of [f] at [t] together with its derivative there. *)
Definition jet (f : R -> R) (t : R) (x : dual) : Prop :=
  primal x = f t /\ derivable_pt_lim f t (tangent x).

(** A guess whose entries have lost their derivatives. *)
Definition detach_guess (r : guess dual) : guess dual :=
  {| p_target := tf_stop_gradient (p_target r);
     p_model := tf_stop_gradient (p_model r) |}.

(** A guesser followed by [detach_guess]. *)
Definition detached {A B C} (G : A -> B -> C -> build (guess dual))
    : A -> B -> C -> build (guess dual) :=
  fun y c T => bind (G y c T) (fun r => ret (detach_guess r)).

(** The values of a tensor of dual numbers, without the derivatives. *)
Definition values (t : tensor2 dual) : tensor2 R := map (map primal) t.

(** Two outcomes of a guesser that differ at most in the derivatives
    carried by the entries of [p_target], and in [p_model]. *)
Definition agree_in_value (o o' : result (guess dual * graph)) : Prop :=
  match o, o' with
  | Ok (r, g), Ok (r', g') => g = g' /\ values (p_target r) = values (p_target r')
  | Err e, Err e' => e = e'
  | _, _ => False
  end.

(** The specification's formulas, entry by entry. *)
Definition spec_softmax (z : tensor2 R) (b c : nat) : R :=
  exp (entry z b c) / sum_list (map exp (nth b z [])).

Definition spec_p_model (logits : list (tensor2 R)) (b c : nat) : R :=
  sum_list (map (fun z => spec_softmax z b c) logits) / INR (length logits).

Definition spec_p_target (nclass : nat) (T : R) (logits : list (tensor2 R))
    (b c : nat) : R :=
  Rpower (spec_p_model logits b c) (1 / T)
  / sum_list (map (fun c' => Rpower (spec_p_model logits b c') (1 / T))
                  (seq 0 nclass)).

(** Lines 64-65 as one map over the rows. *)
Definition sharpen_row (e : R) (row : tensor1 R) : tensor1 R :=
  map (fun x => x / sum_list (map (fun y => pow_R y e) row))
      (map (fun y => pow_R y e) row).

(** The loss a step hands to the optimizer, or the exception raised. *)
Definition step_loss {S} (r : result (step_ops (S := S) * graph))
    : result (list S) :=
  match r with
  | Ok (out, _) => Ok (minimized (train_op out))
  | Err e => Err e
  end.





(** ** A small instance: two classes, batches of two images, two views *)

Definition ex_classifier : kwargs_t -> bool -> images nat -> tensor2 R :=
  fun _ _ x => map (fun i => [IZR (Z.of_nat i); 0]) x.

Definition ex_MixMode : string -> result (augmenter (S := R) nat) :=
  fun _ => Ok (fun xs ls _ => (xs, ls)).

Definition ex_model_vars : option string -> list string :=
  fun _ => ["classify/conv/kernel:0"; "classify/conv/bias:0";
            "classify/bn/gamma:0"]%string.

Definition ex_cfg : config :=
  {| batch := 2; lr := 2 / 1000; wd := 2 / 100; ema := 999 / 1000;
     beta := 1 / 2; w_match := 100; warmup_kimg := 1024; nu := 2;
     mixmode := "xxy.yxy"; dbuf := 128; kwargs := [] |}.

Definition ex_feed : feeds nat :=
  {| xt_in := [1; 2]%nat; x_in := [7]%nat; y_in := [[3; 4]; [5; 6]]%nat;
     l_in := [0; 1]%Z; step := 0 |}.

Definition ex_graph : graph := {| update_ops := []; next_op := 0 |}.

(** The same classifier and mixing function on dual numbers: the first
    logit of an image has derivative 1 along the chosen direction. *)
Definition ex_classifier_dual : kwargs_t -> bool -> images nat -> tensor2 dual :=
  fun _ _ x => map (fun i => [(IZR (Z.of_nat i), 1); (0, 0)]) x.

Definition ex_MixMode_dual : string -> result (augmenter (S := dual) nat) :=
  fun _ => Ok (fun xs ls _ => (xs, ls)).

(** ** The distribution summaries: [MixMatch.distribution_summary]
       (lines 38-51 of [mixmatch.py]) *)

(** ['%d' % i] *)
Fixpoint string_of_uint (d : Decimal.uint) : string :=
  match d with
  | Decimal.Nil => EmptyString
  | Decimal.D0 d => String "0" (string_of_uint d)
  | Decimal.D1 d => String "1" (string_of_uint d)
  | Decimal.D2 d => String "2" (string_of_uint d)
  | Decimal.D3 d => String "3" (string_of_uint d)
  | Decimal.D4 d => String "4" (string_of_uint d)
  | Decimal.D5 d => String "5" (string_of_uint d)
  | Decimal.D6 d => String "6" (string_of_uint d)
  | Decimal.D7 d => String "7" (string_of_uint d)
  | Decimal.D8 d => String "8" (string_of_uint d)
  | Decimal.D9 d => String "9" (string_of_uint d)
  end.

Definition format_d (i : nat) : string := string_of_uint (Nat.to_uint i).

(** A list comprehension whose body may raise, on plain results. *)
Fixpoint map_result {A B} (f : A -> result B) (l : list A) : result (list B) :=
  match l with
  | [] => Ok []
  | a :: l' =>
      match f a with
      | Err e => Err e
      | Ok b => match map_result f l' with
                | Err e => Err e
                | Ok bs => Ok (b :: bs)
                end
      end
  end.

Section Summary.
Context {S : Type} `{Scalar S}.

(** [t[i]] on a vector whose length is known when the graph is built:
    an index past the end is refused. *)
Definition tf_index (t : tensor1 S) (i : nat) : result S :=
  match nth_error t i with
  | Some x => Ok x
  | None => Err ValueError
  end.

(** A binary operation on two vectors, with TensorFlow's broadcasting:
    equal lengths, or one of the two of length 1; any other pair of
    shapes is refused when the graph is built. *)
Definition broadcast2 (f : S -> S -> S) (a b : tensor1 S) : result (tensor1 S) :=
  if (length a =? length b)%nat then Ok (map2 f a b)
  else match a, b with
       | [x], _ => Ok (map (f x) b)
       | _, [y] => Ok (map (fun x => f x y) a)
       | _, _ => Err ValueError
       end.

(** Lines 39-42, the nested [kl]. *)
Definition kl (p q : tensor1 S) : result S :=
  let p := map (fun x => s_div x (sum_list p)) p in
  let q := map (fun x => s_div x (sum_list q)) q in
  match broadcast2 s_div q p with
  | Err e => Err e
  | Ok r =>
      match broadcast2 s_mul p (map s_log r) with
      | Err e => Err e
      | Ok t => Ok (s_neg (sum_list t))
      end
  end.

(** The tags of lines 49 and 51. *)
Definition ratio_tag (i : nat) : string :=
  ("matching/class" ++ format_d i ++ "_ratio")%string.

Definition val_tag (i : nat) : string := ("matching/val" ++ format_d i)%string.

(** Lines 44-51: the scalar summaries, by tag, in the order they are
    written. *)
Definition distribution_summary (nclass : nat) (p_data p_model : tensor1 S)
    (p_target : option (tensor1 S)) : result (list (string * S)) :=
  match kl p_data p_model with
  | Err e => Err e
  | Ok kld =>
      match
        match p_target with
        | Some t =>
            match kl p_data t with
            | Err e => Err e
            | Ok k => Ok [("metrics/kld_target"%string, k)]
            end
        | None => Ok []
        end
      with
      | Err e => Err e
      | Ok kld_target =>
          match map_result
                  (fun i =>
                     match tf_index p_model i with
                     | Err e => Err e
                     | Ok pm =>
                         match tf_index p_data i with
                         | Err e => Err e
                         | Ok pd => Ok (ratio_tag i, s_div pm pd)
                         end
                     end)
                  (seq 0 nclass) with
          | Err e => Err e
          | Ok ratios =>
              match map_result
                      (fun i =>
                         match tf_index p_model i with
                         | Err e => Err e
                         | Ok pm => Ok (val_tag i, pm)
                         end)
                      (seq 0 nclass) with
              | Err e => Err e
              | Ok vals =>
                  Ok ([("metrics/kld"%string, kld)] ++ kld_target ++ ratios ++ vals)
              end
          end
      end
  end.
End Summary.

(** ** Values named in the statements about the guess and the summaries *)

(** The mean over the views of the softmax of their logits (lines 61-62). *)
Definition views_mean {Batch : Type} (net : Batch -> tensor2 R) (views : list Batch)
    : tensor2 R :=
  tf_reduce_mean0 (map tf_softmax (map net views)).

(** A vector divided by its sum (lines 40-41). *)
Definition normalize (p : tensor1 R) : tensor1 R := map (fun x => x / sum_list p) p.

(** The tags of the summaries, in the order they are written. *)
Definition summary_tags (nclass : nat) (with_target : bool) : list string :=
  ["metrics/kld"%string]
  ++ (if with_target then ["metrics/kld_target"%string] else [])
  ++ map ratio_tag (seq 0 nclass) ++ map val_tag (seq 0 nclass).


Definition ex_cfg_training : config :=
  {| batch := 2; lr := 2 / 1000; wd := 2 / 100; ema := 999 / 1000;
     beta := 1 / 2; w_match := 100; warmup_kimg := 1024; nu := 2;
     mixmode := "xxy.yxy"; dbuf := 128; kwargs := [("training"%string, PyInt 0)] |}.

Definition ex_cfg_negative_batch : config :=
  {| batch := -1; lr := 2 / 1000; wd := 2 / 100; ema := 999 / 1000;
     beta := 1 / 2; w_match := 100; warmup_kimg := 1024; nu := 2;
     mixmode := "xxy.yxy"; dbuf := 128; kwargs := [] |}.

(** * Theorems *)

(** ** The monad *)


Lemma bind_err {A B} (m : build A) (k : A -> build B) g e :
  m g = Err e -> bind m k g = Err e.
Proof. intros E. unfold bind. now rewrite E. Qed.


Lemma bind_lift_err {A B} (r : result A) (k : A -> build B) g e :
  r = Err e -> bind (lift r) k g = Err e.
Proof. intros ->. reflexivity. Qed.

Lemma py_div_ok a b : b <> 0 -> py_div a b = Ok (a / b).
Proof. intros Hb. unfold py_div. destruct (Req_dec_T b 0); [contradiction | reflexivity]. Qed.

Lemma py_div_zero a : py_div a 0 = Err ZeroDivisionError.
Proof. unfold py_div. destruct (Req_dec_T 0 0); [reflexivity | contradiction]. Qed.

(** ** Lists *)

Lemma map2_map_r {A B C D} (f : A -> C -> D) (h : B -> C) l1 l2 :
  map2 f l1 (map h l2) = map2 (fun a b => f a (h b)) l1 l2.
Proof.
  unfold map2. revert l2. induction l1 as [|a l1 IH]; intros [|b l2]; simpl; auto.
  now rewrite IH.
Qed.

Lemma map2_diag {A C} (f : A -> A -> C) l :
  map2 f l l = map (fun a => f a a) l.
Proof. unfold map2. induction l as [|a l IH]; simpl; auto. now rewrite IH. Qed.

Lemma map_id_on {A} (f : A -> A) l :
  Forall (fun a => f a = a) l -> map f l = l.
Proof. induction 1; simpl; congruence. Qed.

(** ** Blocks of a list *)

Lemma firstn_app_exact {A} (r rest : list A) : firstn (length r) (r ++ rest) = r.
Proof.
  rewrite firstn_app, Nat.sub_diag, firstn_all. simpl. apply app_nil_r.
Qed.

Lemma skipn_app_exact {A} (r rest : list A) : skipn (length r) (r ++ rest) = rest.
Proof.
  rewrite skipn_app, Nat.sub_diag, skipn_all. reflexivity.
Qed.

Lemma chunks_concat {A} (k : nat) (rows : list (list A)) :
  Forall (fun r => length r = k) rows ->
  chunks (length rows) k (concat rows) = rows.
Proof.
  induction 1 as [|r rows Hr _ IH]; simpl; [reflexivity|].
  subst k. now rewrite firstn_app_exact, skipn_app_exact, IH.
Qed.

Lemma length_concat_uniform {A} (k : nat) (rows : list (list A)) :
  Forall (fun r => length r = k) rows ->
  length (concat rows) = (length rows * k)%nat.
Proof.
  induction 1 as [|r rows Hr _ IH]; simpl; [reflexivity|].
  rewrite length_app, IH, Hr. reflexivity.
Qed.

Lemma Forall_concat {A} (P : A -> Prop) (ls : list (list A)) :
  Forall (Forall P) ls -> Forall P (concat ls).
Proof.
  induction 1; simpl; [constructor | apply Forall_app; auto].
Qed.

(** ** Shapes *)

Lemma length_softmax_row {S} `{Scalar S} (z : tensor1 S) :
  length (softmax_row z) = length z.
Proof. unfold softmax_row. now rewrite !length_map. Qed.

Lemma shape2_softmax {S} `{Scalar S} b c (t : tensor2 S) :
  shape2 b c t -> shape2 b c (tf_softmax t).
Proof.
  intros [Hl Hr]. split; unfold tf_softmax.
  - now rewrite length_map.
  - apply Forall_map. eapply Forall_impl; [|exact Hr].
    intros r E. now rewrite length_softmax_row.
Qed.

(** Reshaping the concatenation of [n] tensors of shape [[b, c]] to
    [[n, -1, c]] gives the tensors back. *)
Lemma tf_reshape3_concat {S} (b c : nat) (L : list (tensor2 S)) :
  L <> [] -> (0 < c)%nat -> Forall (shape2 b c) L ->
  tf_reshape3 (length L) c (concat L) = Ok L.
Proof.
  intros HL Hc Hs.
  assert (Hrows : Forall (fun r : list S => length r = c) (concat L)).
  { apply Forall_concat. eapply Forall_impl; [|exact Hs]. now intros t [_ Ht]. }
  assert (Hgroups : Forall (fun t : tensor2 S => length t = b) L).
  { eapply Forall_impl; [|exact Hs]. now intros t [Ht _]. }
  assert (Hn : (0 < length L)%nat) by (destruct L; simpl; [congruence | lia]).
  unfold tf_reshape3.
  rewrite (length_concat_uniform Hrows), (length_concat_uniform Hgroups).
  destruct (Nat.eqb_spec (length L * c) 0) as [E|_]; [nia|].
  assert (E1 : ((length L * b * c) mod (length L * c) = 0)%nat).
  { replace (length L * b * c)%nat with (b * (length L * c))%nat by lia.
    apply Nat.Div0.mod_mul. }
  assert (E2 : ((length L * b * c) / (length L * c) = b)%nat).
  { replace (length L * b * c)%nat with (b * (length L * c))%nat by lia.
    apply Nat.div_mul. nia. }
  rewrite E1, E2. simpl.
  f_equal.
  rewrite <- (length_concat_uniform Hgroups).
  rewrite (chunks_concat Hrows). apply (chunks_concat Hgroups).
Qed.

(** ** Entries of sums and means *)

Lemma length_map2 {A B C} (f : A -> B -> C) l1 l2 :
  length l1 = length l2 -> length (map2 f l1 l2) = length l1.
Proof. intros E. unfold map2. rewrite length_map, length_combine, <- E. apply Nat.min_id. Qed.

Lemma nth_map2 {A B C} (f : A -> B -> C) l1 l2 i d d1 d2 :
  length l1 = length l2 -> (i < length l1)%nat ->
  nth i (map2 f l1 l2) d = f (nth i l1 d1) (nth i l2 d2).
Proof.
  intros E Hi. unfold map2.
  rewrite (nth_indep _ d (f (fst (d1, d2)) (snd (d1, d2)))).
  - rewrite (map_nth (fun p => f (fst p) (snd p))), combine_nth by assumption.
    reflexivity.
  - rewrite length_map, length_combine, <- E, Nat.min_id. exact Hi.
Qed.

Lemma shape2_row {X} b c (t : list (list X)) i :
  shape2 b c t -> (i < b)%nat -> length (nth i t []) = c.
Proof.
  intros [Hl Hr] Hi. rewrite Forall_forall in Hr. apply Hr, nth_In. lia.
Qed.

Lemma shape2_add2 b c (x y : tensor2 R) :
  shape2 b c x -> shape2 b c y -> shape2 b c (tf_add2 x y).
Proof.
  intros Hx Hy. pose proof Hx as [Hlx Hrx]. pose proof Hy as [Hly Hry].
  split; unfold tf_add2.
  - rewrite length_map2; congruence.
  - apply Forall_forall. intros r Hin.
    apply (In_nth _ _ []) in Hin. destruct Hin as (i & Hi & <-).
    rewrite length_map2 in Hi by congruence.
    rewrite (nth_map2 _ _ _ [] [] []) by congruence.
    rewrite length_map2; rewrite !(shape2_row (b := b) (c := c)); auto; lia.
Qed.

Lemma entry_add2 b c (x y : tensor2 R) i j :
  shape2 b c x -> shape2 b c y -> (i < b)%nat -> (j < c)%nat ->
  entry (tf_add2 x y) i j = entry x i j + entry y i j.
Proof.
  intros Hx Hy Hi Hj. pose proof Hx as [Hlx _]. pose proof Hy as [Hly _].
  unfold entry, tf_add2.
  rewrite (nth_map2 _ _ _ [] [] []) by (congruence || lia).
  rewrite (nth_map2 _ _ _ 0 0 0).
  - reflexivity.
  - rewrite !(shape2_row (b := b) (c := c)); auto.
  - rewrite (shape2_row (b := b) (c := c)); auto.
Qed.

Lemma fold_add2 b c (gs : list (tensor2 R)) (g : tensor2 R) :
  shape2 b c g -> Forall (shape2 b c) gs ->
  shape2 b c (fold_left tf_add2 gs g)
  /\ forall i j, (i < b)%nat -> (j < c)%nat ->
       entry (fold_left tf_add2 gs g) i j
       = entry g i j + sum_list (map (fun t => entry t i j) gs).
Proof.
  intros Hg Hgs. revert g Hg.
  induction Hgs as [|t gs Ht _ IH]; intros g Hg; simpl.
  - split; [assumption|]. intros. unfold s_zero. simpl. lra.
  - destruct (IH (tf_add2 g t) (shape2_add2 Hg Ht)) as [Hs He].
    split; [assumption|]. intros i j Hi Hj.
    rewrite He, (entry_add2 Hg Ht) by assumption. lra.
Qed.

Lemma entry_map_map b c (f : R -> R) (t : tensor2 R) i j :
  shape2 b c t -> (i < b)%nat -> (j < c)%nat ->
  entry (map (map f) t) i j = f (entry t i j).
Proof.
  intros Ht Hi Hj. pose proof Ht as [Hl _]. unfold entry.
  rewrite (nth_indep _ [] (map f [])) by (rewrite length_map; lia).
  rewrite (map_nth (map f)).
  rewrite (nth_indep _ 0 (f 0)) by (rewrite length_map, (shape2_row Ht); auto).
  apply map_nth.
Qed.

Lemma shape2_map_map {X Y} b c (f : X -> Y) (t : list (list X)) :
  shape2 b c t -> shape2 b c (map (map f) t).
Proof.
  intros [Hl Hr]. split; [now rewrite length_map|].
  apply Forall_map. eapply Forall_impl; [|exact Hr].
  intros r E. now rewrite length_map.
Qed.

(** The mean over the views, entry by entry. *)
Lemma tf_reduce_mean0_entry b c (L : list (tensor2 R)) i j :
  Forall (shape2 b c) L -> L <> [] -> (i < b)%nat -> (j < c)%nat ->
  shape2 b c (tf_reduce_mean0 L)
  /\ entry (tf_reduce_mean0 L) i j
     = sum_list (map (fun t => entry t i j) L) / INR (length L).
Proof.
  intros HL Hne Hi Hj. destruct L as [|g gs]; [congruence|].
  inversion HL as [|? ? Hg Hgs]; subst.
  destruct (fold_add2 Hg Hgs) as [Hs He].
  unfold tf_reduce_mean0. split.
  - now apply shape2_map_map.
  - rewrite (entry_map_map _ Hs) by assumption.
    rewrite He by assumption. reflexivity.
Qed.

(** ** Sums *)

Lemma sum_list_pos (l : list R) :
  l <> [] -> Forall (fun x => 0 < x) l -> 0 < sum_list l.
Proof.
  intros Hne Hl. induction Hl as [|x l Hx Hl IH]; [congruence|].
  simpl. destruct l as [|y l].
  - unfold s_zero. simpl. lra.
  - assert (0 < sum_list (y :: l)) by (apply IH; congruence). simpl in *. lra.
Qed.

Lemma sum_list_div (l : list R) (s : R) :
  sum_list (map (fun x => x / s) l) = sum_list l / s.
Proof.
  induction l as [|x l IH]; simpl.
  - unfold s_zero. simpl. lra.
  - rewrite IH. lra.
Qed.

Lemma list_as_map_seq {A} (d : A) (l : list A) :
  l = map (fun i => nth i l d) (seq 0 (length l)).
Proof.
  apply (nth_ext _ _ d d).
  - now rewrite length_map, length_seq.
  - intros n Hn.
    rewrite (nth_indep (map (fun i => nth i l d) (seq 0 (length l))) d (nth 0 l d))
      by (now rewrite length_map, length_seq).
    rewrite (map_nth (fun i => nth i l d)), seq_nth by assumption. reflexivity.
Qed.

(** ** Softmax *)

Lemma entry_softmax b c (z : tensor2 R) i j :
  shape2 b c z -> (i < b)%nat -> (j < c)%nat ->
  entry (tf_softmax z) i j = spec_softmax z i j.
Proof.
  intros Hz Hi Hj. pose proof Hz as [Hl _]. unfold entry, tf_softmax, spec_softmax.
  rewrite (nth_indep _ [] (softmax_row [])) by (rewrite length_map; lia).
  rewrite (map_nth softmax_row). unfold softmax_row.
  set (row := nth i z []).
  assert (Hrow : length row = c) by (apply (shape2_row Hz Hi)).
  rewrite (nth_indep _ 0 ((fun x => s_div x (sum_list (map s_exp row))) (exp 0)))
    by (rewrite !length_map; lia).
  rewrite (map_nth (fun x => s_div x (sum_list (map s_exp row)))).
  change (s_exp (S := R)) with exp. rewrite (map_nth exp). reflexivity.
Qed.

Lemma spec_softmax_pos b c (z : tensor2 R) i j :
  shape2 b c z -> (i < b)%nat -> (j < c)%nat -> 0 < spec_softmax z i j.
Proof.
  intros Hz Hi Hj. unfold spec_softmax. apply Rdiv_lt_0_compat; [apply exp_pos|].
  apply sum_list_pos.
  - pose proof (shape2_row Hz Hi) as E. destruct (nth i z []); simpl in *; [lia | congruence].
  - apply Forall_map, Forall_forall. intros; apply exp_pos.
Qed.

Lemma spec_p_model_pos b c (L : list (tensor2 R)) i j :
  L <> [] -> Forall (shape2 b c) L -> (i < b)%nat -> (j < c)%nat ->
  0 < spec_p_model L i j.
Proof.
  intros Hne HL Hi Hj. unfold spec_p_model. apply Rdiv_lt_0_compat.
  - apply sum_list_pos; [destruct L; simpl; congruence|].
    apply Forall_map. eapply Forall_impl; [|exact HL].
    intros z Hz. now apply (spec_softmax_pos Hz).
  - apply lt_0_INR. destruct L; simpl; [congruence | lia].
Qed.

Lemma pow_R_pos x e : 0 < x -> pow_R x e = Rpower x e /\ 0 < Rpower x e.
Proof.
  intros Hx. unfold pow_R. destruct (Req_dec_T x 0); [lra|].
  split; [reflexivity|]. unfold Rpower. apply exp_pos.
Qed.

(** ** Sharpening *)

Lemma pow_R_one x : 0 <= x -> pow_R x 1 = x.
Proof.
  intros Hx. unfold pow_R. destruct (Req_dec_T x 0) as [->|Hn].
  - destruct (Req_dec_T 1 0); [lra | reflexivity].
  - apply Rpower_1. lra.
Qed.

(** C9: sharpening with temperature 1 returns every probability vector of
    the batch unchanged: the power [1/T] is the identity on non-negative
    entries and the row sum it divides by is 1. *)
Theorem sharpen_T1_identity (p : tensor2 R) :
  Forall prob_vector p -> sharpen p 1 = Ok p.
Proof.
  intros Hp. unfold sharpen. rewrite py_div_ok by lra.
  replace (1 / 1) with 1 by lra. f_equal.
  assert (Hpow : tf_pow p (of_R 1) = p).
  { unfold tf_pow. apply map_id_on. eapply Forall_impl; [|exact Hp].
    intros r [Hr _]. apply map_id_on. eapply Forall_impl; [|exact Hr].
    intros x Hx. simpl. now apply pow_R_one. }
  rewrite Hpow. unfold tf_div, tf_reduce_sum1_keep.
  rewrite map2_map_r, map2_diag. apply map_id_on.
  eapply Forall_impl; [|exact Hp]. intros r [_ Hs].
  apply map_id_on. apply Forall_forall. intros x _. simpl in *.
  rewrite Hs. lra.
Qed.

Lemma sharpen_T1_identity_witness :
  sharpen [[1 / 4; 3 / 4]; [1; 0]] 1 = Ok [[1 / 4; 3 / 4]; [1; 0]].
Proof.
  apply sharpen_T1_identity.
  repeat constructor; simpl; lra.
Defined.

(** ** The label guesser *)

Lemma same_width_rows {Y} (c : nat) (rows : list (list Y)) :
  Forall (fun r => length r = c) rows -> same_width rows = true.
Proof.
  intros Hr. destruct Hr as [|r rows Er Hr]; [reflexivity|].
  simpl. apply forallb_forall. intros r' Hin.
  rewrite Forall_forall in Hr. rewrite (Hr r' Hin), Er. apply Nat.eqb_refl.
Qed.

Lemma tf_concat_ok {Y} (ts : list (list (list Y))) :
  ts <> [] -> same_width (concat ts) = true -> tf_concat ts = Ok (concat ts).
Proof. intros Hne Hw. destruct ts; [congruence|]. unfold tf_concat. now rewrite Hw. Qed.

Lemma tf_concat_shapes {Y} (b c : nat) (ts : list (list (list Y))) :
  ts <> [] -> Forall (shape2 b c) ts -> tf_concat ts = Ok (concat ts).
Proof.
  intros Hne Hs. apply tf_concat_ok; [exact Hne|].
  apply (same_width_rows (c := c)), Forall_concat.
  eapply Forall_impl; [|exact Hs]. now intros t [_ Ht].
Qed.

Lemma tf_concat_inv {Y} (ts : list (list (list Y))) l :
  tf_concat ts = Ok l -> l = concat ts /\ ts <> [] /\ same_width (concat ts) = true.
Proof.
  destruct ts as [|t ts]; [discriminate|]. unfold tf_concat.
  destruct (same_width _); [|discriminate]. intros [= <-]. repeat split. discriminate.
Qed.

Lemma sharpen_rows (p : tensor2 R) (T : R) :
  T <> 0 -> sharpen p T = Ok (map (sharpen_row (1 / T)) p).
Proof.
  intros HT. unfold sharpen. rewrite py_div_ok by assumption. f_equal.
  unfold tf_div, tf_reduce_sum1_keep, tf_pow.
  rewrite map2_map_r, map2_diag, map_map. reflexivity.
Qed.

Lemma sharpen_row_spec (e : R) (row : tensor1 R) :
  row <> [] -> Forall (fun x => 0 < x) row ->
  let s := sum_list (map (fun j => Rpower (nth j row 0) e) (seq 0 (length row))) in
  length (sharpen_row e row) = length row
  /\ (forall j, (j < length row)%nat ->
        nth j (sharpen_row e row) 0 = Rpower (nth j row 0) e / s)
  /\ sum_list (sharpen_row e row) = 1.
Proof.
  intros Hne Hpos s.
  assert (Epow : map (fun y => pow_R y e) row
                 = map (fun j => Rpower (nth j row 0) e) (seq 0 (length row))).
  { rewrite (list_as_map_seq 0 row) at 1. rewrite map_map.
    apply map_ext_in. intros j Hj. apply in_seq in Hj.
    apply pow_R_pos. rewrite Forall_forall in Hpos. apply Hpos, nth_In. lia. }
  assert (Hs : 0 < s).
  { unfold s. apply sum_list_pos.
    - destruct row; simpl; [congruence | discriminate].
    - apply Forall_map, Forall_forall. intros j _. unfold Rpower. apply exp_pos. }
  unfold sharpen_row. rewrite Epow. fold s. repeat split.
  - now rewrite !length_map, length_seq.
  - intros j Hj.
    rewrite (nth_indep _ 0 ((fun x => x / s) 0)) by (now rewrite !length_map, length_seq).
    rewrite (map_nth (fun x => x / s)). f_equal.
    rewrite (nth_indep _ 0 ((fun j => Rpower (nth j row 0) e) 0%nat))
      by (now rewrite length_map, length_seq).
    rewrite (map_nth (fun j => Rpower (nth j row 0) e)), seq_nth by assumption.
    reflexivity.
  - rewrite sum_list_div. fold s. unfold Rdiv. apply Rinv_r. lra.
Qed.

Section GuessLabelSpec.
Variable Batch : Type.
Variable nclass : nat.
Variable net : Batch -> tensor2 R.
Variable clf : Batch -> bool -> build (tensor2 R).
Hypothesis clf_runs : forall x g, exists g', clf x true g = Ok (net x, g').

Lemma mapM_clf (views : list Batch) g :
  exists g', mapM (fun yi => clf yi true) views g = Ok (map net views, g').
Proof.
  revert g. induction views as [|v views IH]; intros g; simpl.
  - exists g. reflexivity.
  - destruct (clf_runs v g) as [g1 E1]. destruct (IH g1) as [g2 E2].
    exists g2. unfold bind, ret. now rewrite E1, E2.
Qed.

(** C1: for views of [B] examples each, a classifier that returns logits
    of shape [[B, nclass]] and a temperature [T > 0], the guesser returns
    [p_model], the mean over the views of the softmax of the logits, and
    [p_target], [p_model] to the power [1/T] divided by its row sums; the
    rows of [p_target] add up to 1. *)
Theorem guess_label_spec (views : list Batch) (B : nat) (T : R) (g : graph) :
  0 < T -> views <> [] -> (0 < nclass)%nat ->
  Forall (fun v => shape2 B nclass (net v)) views ->
  exists r g',
    guess_label nclass views clf T g = Ok (r, g')
    /\ shape2 B nclass (p_model r)
    /\ shape2 B nclass (p_target r)
    /\ (forall b c, (b < B)%nat -> (c < nclass)%nat ->
          entry (p_model r) b c = spec_p_model (map net views) b c
          /\ entry (p_target r) b c = spec_p_target nclass T (map net views) b c)
    /\ (forall b, (b < B)%nat -> sum_list (nth b (p_target r) []) = 1).
Proof.
  intros HT Hne Hc Hshape.
  set (L := map net views).
  assert (HL : Forall (shape2 B nclass) L) by (now apply Forall_map).
  assert (HLne : L <> []) by (unfold L; destruct views; simpl; congruence).
  set (P := map tf_softmax L).
  assert (HP : Forall (shape2 B nclass) P).
  { apply Forall_map. eapply Forall_impl; [|exact HL]. intros; now apply shape2_softmax. }
  assert (HPne : P <> []) by (unfold P; destruct L; simpl; congruence).
  assert (Hmean : forall b c, (b < B)%nat -> (c < nclass)%nat ->
            shape2 B nclass (tf_reduce_mean0 P)
            /\ entry (tf_reduce_mean0 P) b c = spec_p_model L b c).
  { intros b c Hb Hcc. destruct (tf_reduce_mean0_entry HP HPne Hb Hcc) as [Hs He].
    split; [assumption|]. rewrite He. unfold spec_p_model, P.
    rewrite !length_map, map_map. f_equal. f_equal.
    apply map_ext_in. intros z Hz. rewrite Forall_forall in HL.
    now apply (entry_softmax (HL z Hz)). }
  assert (Hsh : shape2 B nclass (tf_reduce_mean0 P)).
  { destruct P as [|t P'] eqn:EP; [congruence|].
    inversion HP as [|? ? Ht HP']; subst.
    unfold tf_reduce_mean0. apply shape2_map_map. now apply fold_add2. }
  destruct (mapM_clf views g) as [g' Erun].
  exists {| p_target := map (sharpen_row (1 / T)) (tf_reduce_mean0 P);
            p_model := tf_reduce_mean0 P |}, g'.
  assert (Hrow : forall b, (b < B)%nat ->
            nth b (tf_reduce_mean0 P) [] <> []
            /\ Forall (fun x => 0 < x) (nth b (tf_reduce_mean0 P) [])
            /\ length (nth b (tf_reduce_mean0 P) []) = nclass).
  { intros b Hb. pose proof (shape2_row Hsh Hb) as El.
    repeat split; [destruct (nth b _ []); simpl in *; [lia | congruence] | | exact El].
    apply Forall_forall. intros x Hx. apply (In_nth _ _ 0) in Hx.
    destruct Hx as (c & Hcc & <-). rewrite El in Hcc.
    change (0 < entry (tf_reduce_mean0 P) b c).
    destruct (Hmean b c Hb Hcc) as [_ ->]. now apply (spec_p_model_pos HLne HL). }
  split; [|split; [|split; [|split]]].
  - unfold guess_label, bind. rewrite Erun. fold L.
    rewrite (tf_concat_shapes HLne HL). unfold lift at 1, tf_softmax at 1.
    rewrite concat_map. change (map (map softmax_row) L) with P.
    replace (length views) with (length P) by (unfold P, L; now rewrite !length_map).
    rewrite (tf_reshape3_concat HPne Hc HP).
    unfold lift. rewrite sharpen_rows by lra. reflexivity.
  - exact Hsh.
  - simpl. destruct Hsh as [Hl Hr]. split; [now rewrite length_map|].
    apply Forall_forall. intros r Hin. apply in_map_iff in Hin.
    destruct Hin as (row & <- & Hin). apply (In_nth _ _ []) in Hin.
    destruct Hin as (b & Hb & <-). rewrite Hl in Hb.
    destruct (Hrow b Hb) as (Hn & Hp & El).
    destruct (sharpen_row_spec (1 / T) Hn Hp) as (E & _). congruence.
  - intros b c Hb Hcc. simpl. split; [now apply Hmean|].
    destruct (Hrow b Hb) as (Hn & Hp & El).
    destruct (sharpen_row_spec (1 / T) Hn Hp) as (_ & E & _).
    unfold entry at 1.
    rewrite (nth_indep _ [] (sharpen_row (1 / T) []))
      by (rewrite length_map; destruct Hsh; lia).
    rewrite (map_nth (sharpen_row (1 / T))), E by lia.
    unfold spec_p_target. rewrite El.
    change (nth c (nth b (tf_reduce_mean0 P) []) 0) with (entry (tf_reduce_mean0 P) b c).
    destruct (Hmean b c Hb Hcc) as [_ ->]. f_equal. f_equal.
    apply map_ext_in. intros c' Hc'. apply in_seq in Hc'.
    change (nth c' (nth b (tf_reduce_mean0 P) []) 0) with (entry (tf_reduce_mean0 P) b c').
    destruct (Hmean b c' Hb) as [_ ->]; [lia | reflexivity].
  - intros b Hb. simpl. destruct (Hrow b Hb) as (Hn & Hp & El).
    rewrite (nth_indep _ [] (sharpen_row (1 / T) []))
      by (rewrite length_map; destruct Hsh; lia).
    rewrite (map_nth (sharpen_row (1 / T))).
    now destruct (sharpen_row_spec (1 / T) Hn Hp) as (_ & _ & E).
Qed.
End GuessLabelSpec.

(** ** The warm-up of the matching weight *)

Lemma shiftl_10 k : Z.shiftl k 10 = (k * 1024)%Z.
Proof. rewrite Z.shiftl_mul_pow2 by lia. reflexivity. Qed.

Lemma clip_below x : x <= 0 -> tf_clip_by_value x 0 1 = 0.
Proof.
  intros Hx. unfold tf_clip_by_value.
  rewrite Rmax_right by lra. apply Rmin_left. lra.
Qed.

Lemma clip_inside x : 0 <= x <= 1 -> tf_clip_by_value x 0 1 = x.
Proof.
  intros Hx. unfold tf_clip_by_value.
  rewrite Rmax_left by lra. apply Rmin_left. lra.
Qed.

Lemma clip_above x : 1 <= x -> tf_clip_by_value x 0 1 = 1.
Proof.
  intros Hx. unfold tf_clip_by_value.
  rewrite Rmax_left by lra. apply Rmin_right. lra.
Qed.

(** C3: for a positive warm-up duration [k] (in units of 1024 examples)
    and an example count [s >= 0], the matching weight is
    [w * clip (s / (k * 1024)) 0 1]: 0 at [s = 0], linear in [s] up to
    [k * 1024], equal to [w] there and for every larger [s]. *)
Theorem ramped_w_match_spec (w : R) (s k : Z) :
  (0 < k)%Z -> (0 <= s)%Z ->
  ramped_w_match w s k = w * tf_clip_by_value (IZR s / (IZR k * 1024)) 0 1
  /\ ramped_w_match w 0 k = 0
  /\ ((s <= k * 1024)%Z -> ramped_w_match w s k = w * (IZR s / (IZR k * 1024)))
  /\ ramped_w_match w (k * 1024) k = w
  /\ ((k * 1024 <= s)%Z -> ramped_w_match w s k = w).
Proof.
  intros Hk Hs. unfold ramped_w_match. rewrite shiftl_10, mult_IZR.
  assert (HK : 0 < IZR k * 1024).
  { apply IZR_lt in Hk. lra. }
  assert (HS : 0 <= IZR s) by (apply IZR_le in Hs; lra).
  repeat split.
  - unfold Rdiv at 1. rewrite Rmult_0_l, clip_below by lra. lra.
  - intros Hle. rewrite clip_inside; [reflexivity|].
    apply IZR_le in Hle. rewrite mult_IZR in Hle. split.
    + apply Rmult_le_pos; [lra|]. left. now apply Rinv_0_lt_compat.
    + apply Rmult_le_reg_r with (IZR k * 1024); [lra|].
      unfold Rdiv. rewrite Rmult_assoc, Rinv_l by lra. lra.
  - unfold Rdiv. rewrite Rinv_r by lra.
    rewrite clip_inside by lra. lra.
  - intros Hle. rewrite clip_above; [lra|].
    apply IZR_le in Hle. rewrite mult_IZR in Hle.
    apply Rmult_le_reg_r with (IZR k * 1024); [lra|].
    unfold Rdiv. rewrite Rmult_assoc, Rinv_l by lra. lra.
Qed.

Lemma ramped_w_match_spec_witness :
  ramped_w_match 100 0 1024 = 0 /\ ramped_w_match 100 (1024 * 1024) 1024 = 100.
Proof.
  destruct (ramped_w_match_spec 100 (s := 0) (k := 1024)) as (_ & H0 & _ & H1 & _);
    [lia | lia |].
  split; [exact H0 | exact H1].
Defined.

(** ** Assignments to variables *)

Lemma run_assigns_scale (f : R) (l : list string) (st : store) (v : string) :
  NoDup l ->
  run_assigns (map (fun w => (w, f)) l) st v
  = if existsb (String.eqb v) l then map (fun x => x * f) (st v) else st v.
Proof.
  unfold run_assigns. revert st.
  induction l as [|a l IH]; intros st Hnd; simpl; [reflexivity|].
  inversion Hnd as [|? ? Hna Hnd']; subst.
  rewrite IH by assumption.
  destruct (String.eqb_spec v a) as [->|Hva]; simpl.
  - assert (E : existsb (String.eqb a) l = false).
    { apply not_true_is_false. intros E. apply existsb_exists in E.
      destruct E as (x & Hx & Exa). apply String.eqb_eq in Exa. now subst. }
    rewrite E. unfold run_assign. simpl. rewrite String.eqb_refl. reflexivity.
  - unfold run_assign. simpl. apply String.eqb_neq in Hva. rewrite Hva. reflexivity.
Qed.

Lemma existsb_filter (p : string -> bool) (l : list string) (v : string) :
  existsb (String.eqb v) (filter p l) = existsb (String.eqb v) l && p v.
Proof.
  induction l as [|a l IH]; simpl; [reflexivity|].
  destruct (p a) eqn:Hp; simpl; rewrite IH.
  - destruct (String.eqb_spec v a) as [->|]; simpl; [now rewrite Hp | reflexivity].
  - destruct (String.eqb_spec v a) as [->|]; simpl; [|reflexivity].
    rewrite Hp, andb_false_r. reflexivity.
Qed.

(** ** Interleaving *)

Section InterleaveFacts.
Context {A : Type}.
Local Open Scope nat_scope.

Lemma nth_map_seq {B} (f : nat -> B) (n i : nat) (d : B) :
  i < n -> nth i (map f (seq 0 n)) d = f i.
Proof.
  intros Hi. rewrite (nth_indep _ d (f 0)) by (now rewrite length_map, length_seq).
  rewrite (map_nth f), seq_nth by assumption. reflexivity.
Qed.

(** Cutting a batch and gluing the groups back. *)
Lemma split_groups_concat (sizes : list nat) (row : list (list A)) :
  map (@length A) row = sizes -> split_groups sizes (concat row) = row.
Proof.
  intros <-. induction row as [|g row IH]; simpl; [reflexivity|].
  now rewrite firstn_app_exact, skipn_app_exact, IH.
Qed.

Lemma concat_split_groups (sizes : list nat) (v : list A) :
  list_sum sizes = length v ->
  map (@length A) (split_groups sizes v) = sizes
  /\ concat (split_groups sizes v) = v.
Proof.
  revert v. induction sizes as [|s sizes IH]; intros v E; simpl in *.
  - destruct v; [auto | discriminate].
  - destruct (IH (skipn s v)) as [E1 E2]; [rewrite length_skipn; lia|].
    rewrite E1, E2, firstn_skipn, length_firstn. split; [f_equal; lia | reflexivity].
Qed.

Lemma grid_row sizes (G : list (list (list A))) i :
  grid sizes G -> i < length sizes -> map (@length A) (nth i G []) = sizes.
Proof.
  intros [Hl Hr] Hi. rewrite Forall_forall in Hr. apply Hr, nth_In. lia.
Qed.

Lemma grid_row_length sizes (G : list (list (list A))) i :
  grid sizes G -> i < length sizes -> length (nth i G []) = length sizes.
Proof.
  intros HG Hi. pose proof (grid_row HG Hi) as E.
  apply (f_equal (@length nat)) in E. now rewrite length_map in E.
Qed.

Lemma grid_cell_length sizes (G : list (list (list A))) i p :
  grid sizes G -> i < length sizes -> p < length sizes ->
  length (cell G i p) = nth p sizes 0.
Proof.
  intros HG Hi Hp. unfold cell. pose proof (grid_row HG Hi) as E.
  apply (f_equal (fun l => nth p l 0)) in E. rewrite <- E.
  change 0 with (length (@nil A)). now rewrite map_nth.
Qed.

Lemma length_exchange (G : list (list (list A))) : length (exchange G) = length G.
Proof. unfold exchange. now rewrite length_map, length_seq. Qed.

Lemma nth_exchange (G : list (list (list A))) i :
  i < length G ->
  nth i (exchange G) []
  = map (fun p => if i =? 0 then cell G p p
                  else if p =? i then cell G 0 i
                  else cell G i p)
        (seq 0 (length (nth i G []))).
Proof. intros Hi. unfold exchange. now rewrite nth_map_seq. Qed.

Lemma cell_exchange sizes (G : list (list (list A))) i p :
  grid sizes G -> i < length sizes -> p < length sizes ->
  cell (exchange G) i p
  = if i =? 0 then cell G p p
    else if p =? i then cell G 0 i
    else cell G i p.
Proof.
  intros HG Hi Hp. pose proof HG as [Hl _]. unfold cell at 1.
  rewrite nth_exchange by lia. rewrite nth_map_seq; [reflexivity|].
  now rewrite (grid_row_length HG Hi).
Qed.

Lemma grid_exchange sizes (G : list (list (list A))) : grid sizes G -> grid sizes (exchange G).
Proof.
  intros HG. pose proof HG as [Hl _]. split.
  - now rewrite length_exchange.
  - apply Forall_forall. intros row Hin. apply (In_nth _ _ []) in Hin.
    destruct Hin as (i & Hi & <-). rewrite length_exchange, Hl in Hi.
    rewrite nth_exchange by lia. rewrite (grid_row_length HG Hi).
    rewrite map_map. apply (nth_ext _ _ 0 0).
    + now rewrite length_map, length_seq.
    + intros p Hp. rewrite length_map, length_seq in Hp.
      rewrite nth_map_seq by assumption.
      destruct (i =? 0); [|destruct (Nat.eqb_spec p i) as [->|]];
        apply grid_cell_length; (assumption || lia).
Qed.

Lemma exchange_involutive sizes (G : list (list (list A))) : grid sizes G -> exchange (exchange G) = G.
Proof.
  intros HG. pose proof HG as [Hl _]. pose proof (grid_exchange HG) as HE.
  pose proof (grid_exchange HE) as HE2.
  apply (nth_ext _ _ [] []).
  - now rewrite !length_exchange.
  - intros i Hi. rewrite !length_exchange, Hl in Hi.
    apply (nth_ext _ _ [] []).
    + now rewrite (grid_row_length HE2 Hi), (grid_row_length HG Hi).
    + intros p Hp. rewrite (grid_row_length HE2 Hi) in Hp.
      change (cell (exchange (exchange G)) i p = cell G i p).
      rewrite (cell_exchange HE Hi Hp).
      destruct (Nat.eqb_spec i 0) as [->|Hi0].
      * rewrite (cell_exchange HG Hp Hp).
        destruct (Nat.eqb_spec p 0) as [->|_]; [reflexivity|].
        now rewrite Nat.eqb_refl.
      * destruct (Nat.eqb_spec p i) as [->|Hpi].
        -- rewrite (cell_exchange HG) by lia. reflexivity.
        -- rewrite (cell_exchange HG Hi Hp).
           destruct (Nat.eqb_spec i 0); [contradiction|].
           destruct (Nat.eqb_spec p i); [contradiction | reflexivity].
Qed.

Lemma grid_split sizes (xy : list (list A)) :
  length xy = length sizes ->
  Forall (fun v => length v = list_sum sizes) xy ->
  grid sizes (map (split_groups sizes) xy).
Proof.
  intros Hl Hv. split; [now rewrite length_map|].
  apply Forall_map. eapply Forall_impl; [|exact Hv].
  intros v E. now apply concat_split_groups.
Qed.

Lemma interleave_with_spec sizes (xy : list (list A)) :
  length xy = length sizes ->
  Forall (fun v => length v = list_sum sizes) xy ->
  length (interleave_with sizes xy) = length xy
  /\ Forall (fun v => length v = list_sum sizes) (interleave_with sizes xy)
  /\ interleave_with sizes (interleave_with sizes xy) = xy.
Proof.
  intros Hl Hv.
  assert (HG : grid sizes (map (split_groups sizes) xy)) by (now apply grid_split).
  pose proof (grid_exchange HG) as HE. unfold interleave_with.
  assert (Hsplit : map (split_groups sizes) (map (@concat A)
                     (exchange (map (split_groups sizes) xy)))
                   = exchange (map (split_groups sizes) xy)).
  { rewrite map_map. apply map_id_on. destruct HE as [_ HE].
    eapply Forall_impl; [|exact HE]. intros row. apply split_groups_concat. }
  repeat split.
  - now rewrite length_map, length_exchange, length_map.
  - apply Forall_map. destruct HE as [_ HE]. eapply Forall_impl; [|exact HE].
    intros row E. rewrite length_concat, E. reflexivity.
  - rewrite Hsplit, (exchange_involutive HG), map_map. apply map_id_on.
    eapply Forall_impl; [|exact Hv]. intros v E. now apply concat_split_groups.
Qed.

(** The group sizes. *)
Lemma list_sum_threshold (a k n : nat) :
  list_sum (map (fun p => if k <=? p then a + 1 else a) (seq 0 n))
  = n * a + (n - k).
Proof.
  induction n as [|n IH]; [reflexivity|].
  rewrite seq_S, map_app, list_sum_app, IH. cbn [map list_sum Nat.add].
  destruct (Nat.leb_spec k n); unfold list_sum, fold_right; lia.
Qed.

Lemma interleave_groups_spec (batch nu : nat) :
  length (interleave_groups batch nu) = nu + 1
  /\ list_sum (interleave_groups batch nu) = batch.
Proof.
  unfold interleave_groups. split; [now rewrite length_map, length_seq|].
  rewrite list_sum_threshold.
  pose proof (Nat.mod_upper_bound batch (nu + 1)).
  pose proof (Nat.div_mod_eq batch (nu + 1)). nia.
Qed.

Lemma interleave_round_trip (xy : list (list A)) (batch : nat) :
  xy <> [] ->
  Forall (fun v => length v = batch) xy ->
  length (interleave xy batch) = length xy
  /\ Forall (fun v => length v = batch) (interleave xy batch)
  /\ interleave (interleave xy batch) batch = xy.
Proof.
  intros Hne Hv. unfold interleave.
  destruct (interleave_groups_spec batch (length xy - 1)) as [Hl Hs].
  assert (Hlen : length xy = length (interleave_groups batch (length xy - 1))).
  { rewrite Hl. destruct xy; [congruence | simpl; lia]. }
  assert (Hv' : Forall (fun v => length v
                = list_sum (interleave_groups batch (length xy - 1))) xy).
  { eapply Forall_impl; [|exact Hv]. intros v E. now rewrite Hs. }
  destruct (interleave_with_spec _ Hlen Hv') as (E1 & E2 & E3).
  rewrite E1. split; [reflexivity|]. split; [|exact E3].
  eapply Forall_impl; [|exact E2]. intros v E. now rewrite <- Hs.
Qed.


End InterleaveFacts.

Section InterleaveMap.
Context {A B : Type}.
Variable f : A -> B.
Local Open Scope nat_scope.

(** Interleaving moves examples and does not look at them. *)
Lemma split_groups_map (sizes : list nat) (v : list A) :
  split_groups sizes (map f v) = map (map f) (split_groups sizes v).
Proof.
  revert v. induction sizes as [|s sizes IH]; intros v; simpl; [reflexivity|].
  now rewrite firstn_map, skipn_map, IH.
Qed.

Lemma nth_map_groups (G : list (list (list A))) i :
  nth i (map (map (map f)) G) [] = map (map f) (nth i G []).
Proof. exact (map_nth (map (map f)) G [] i). Qed.

Lemma cell_map (G : list (list (list A))) i p :
  cell (map (map (map f)) G) i p = map f (cell G i p).
Proof.
  unfold cell. rewrite nth_map_groups. exact (map_nth (map f) (nth i G []) [] p).
Qed.

Lemma exchange_map (G : list (list (list A))) :
  exchange (map (map (map f)) G) = map (map (map f)) (exchange G).
Proof.
  unfold exchange. rewrite length_map, map_map. apply map_ext. intros i.
  rewrite nth_map_groups, length_map, map_map. apply map_ext. intros p.
  rewrite !cell_map. destruct (i =? 0); [|destruct (p =? i)]; reflexivity.
Qed.

Lemma interleave_with_map (sizes : list nat) (xy : list (list A)) :
  interleave_with sizes (map (map f) xy) = map (map f) (interleave_with sizes xy).
Proof.
  unfold interleave_with. rewrite !map_map.
  assert (E : map (fun v => split_groups sizes (map f v)) xy
              = map (map (map f)) (map (split_groups sizes) xy)).
  { rewrite map_map. apply map_ext. intros v. apply split_groups_map. }
  rewrite E, exchange_map, map_map. apply map_ext. intros row.
  symmetry. apply concat_map.
Qed.

Lemma interleave_map (xy : list (list A)) (batch : nat) :
  interleave (map (map f) xy) batch = map (map f) (interleave xy batch).
Proof. unfold interleave. rewrite length_map. apply interleave_with_map. Qed.
End InterleaveMap.

Section InterleaveRoundTrip.
Context {A : Type}.
Local Open Scope nat_scope.

(** C10: for one stream or more, each of [batch] examples, interleaving
    keeps the number of streams and their size, so that the second call
    of the step uses the same grouping as the first; interleaving twice
    gives the streams back; and what is computed example by example on
    the interleaved batches comes back, after the second interleaving, in
    the order of the streams before the first. *)
Theorem interleave_involutive (xy : list (list A)) (batch : nat) :
  xy <> [] ->
  Forall (fun v => length v = batch) xy ->
  length (interleave xy batch) = length xy
  /\ Forall (fun v => length v = batch) (interleave xy batch)
  /\ interleave (interleave xy batch) batch = xy
  /\ forall (B : Type) (f : A -> B),
       interleave (map (map f) (interleave xy batch)) batch = map (map f) xy.
Proof.
  intros Hne Hv.
  destruct (interleave_round_trip Hne Hv) as (E1 & E2 & E3).
  repeat split; auto.
  intros B f. now rewrite interleave_map, E3.
Qed.
End InterleaveRoundTrip.

(** ** The update-operation collection *)

Section Collection.
Context {S : Type}.
Variable Img : Type.
Variable self_classifier : kwargs_t -> bool -> images Img -> tensor2 S.
Variable n_update_ops : nat.

Local Abbreviation classifier' := (classifier self_classifier n_update_ops).
Local Abbreviation after_pass := (after_pass n_update_ops).
Local Abbreviation after_passes := (after_passes n_update_ops).

Lemma classifier_inv kw x g l g' :
  classifier' kw x true g = Ok (l, g') ->
  has_key "training" kw = false
  /\ l = self_classifier kw true x /\ g' = after_pass g.
Proof.
  unfold classifier, forward_pass, call_with_kwargs, raise. simpl.
  destruct (has_key "training" kw); simpl; [discriminate|].
  rewrite length_seq. intros [= <- <-]. auto.
Qed.

Lemma classifier_runs kw x g :
  has_key "training" kw = false ->
  classifier' kw x true g = Ok (self_classifier kw true x, after_pass g).
Proof.
  intros E. unfold classifier, forward_pass, call_with_kwargs. simpl.
  rewrite E. simpl. now rewrite length_seq.
Qed.

Lemma classifier_eval kw x g :
  classifier' kw x false g
  = if has_key "training" kw then Err TypeError
    else Ok (self_classifier kw false x, g).
Proof.
  unfold classifier, call_with_kwargs, forward_pass, raise. simpl.
  rewrite orb_false_r. destruct (has_key "training" kw); [reflexivity|].
  destruct g as [ops n]. simpl. now rewrite app_nil_r, Nat.add_0_r.
Qed.

Lemma mapM_classifier_inv kw (l : list (images Img)) g ls g' :
  mapM (fun b => classifier' kw b true) l g = Ok (ls, g') ->
  ls = map (self_classifier kw true) l /\ g' = after_passes (length l) g.
Proof.
  revert g ls g'. induction l as [|b l IH]; intros g ls g'; simpl.
  - unfold ret. intros [= <- <-]. auto.
  - unfold bind at 1.
    destruct (classifier' kw b true g) as [[l0 g0]|] eqn:E0; [|discriminate].
    apply classifier_inv in E0. destruct E0 as (_ & -> & ->).
    unfold bind at 1.
    destruct (mapM _ l (after_pass g)) as [[ls' g2]|] eqn:E1; [|discriminate].
    apply IH in E1. destruct E1 as [-> ->].
    unfold ret. intros [= <- <-]. auto.
Qed.

Lemma mapM_classifier_runs kw (l : list (images Img)) g :
  has_key "training" kw = false ->
  mapM (fun b => classifier' kw b true) l g
  = Ok (map (self_classifier kw true) l, after_passes (length l) g).
Proof.
  intros E. revert g. induction l as [|b l IH]; intros g; simpl; [reflexivity|].
  unfold bind. rewrite (classifier_runs kw b g E), IH. reflexivity.
Qed.

Lemma after_pass_wf g : graph_wf g -> graph_wf (after_pass g).
Proof.
  unfold graph_wf, after_pass. simpl. intros Hg. apply Forall_app. split.
  - eapply Forall_impl; [|exact Hg]. simpl. intros; lia.
  - apply Forall_forall. intros id Hin. apply in_seq in Hin. lia.
Qed.

Lemma after_passes_wf k g : graph_wf g -> graph_wf (after_passes k g).
Proof. revert g. induction k; simpl; auto using after_pass_wf. Qed.

Lemma after_passes_ops k g :
  update_ops (after_passes k g)
  = update_ops g ++ seq (next_op g) (k * n_update_ops)
  /\ next_op (after_passes k g) = (next_op g + k * n_update_ops)%nat.
Proof.
  revert g. induction k as [|k IH]; intros g; simpl.
  - rewrite app_nil_r. split; [reflexivity | lia].
  - destruct (IH (after_pass g)) as [E1 E2]. rewrite E1, E2. simpl. split; [|lia].
    rewrite <- app_assoc. f_equal. now rewrite seq_app.
Qed.

(** Line 106 keeps what the pass has just registered, and only that. *)
Lemma new_update_ops g :
  graph_wf g ->
  filter (fun v => negb (existsb (Nat.eqb v) (update_ops g)))
         (update_ops (after_pass g))
  = seq (next_op g) n_update_ops.
Proof.
  intros Hg. unfold after_pass. simpl. rewrite filter_app.
  assert (E1 : filter (fun v => negb (existsb (Nat.eqb v) (update_ops g)))
                      (update_ops g) = []).
  { assert (Hsub : forall l, incl l (update_ops g) ->
              filter (fun v => negb (existsb (Nat.eqb v) (update_ops g))) l = []).
    { induction l as [|a l IH]; intros Hincl; simpl; [reflexivity|].
      assert (Ea : existsb (Nat.eqb a) (update_ops g) = true).
      { apply existsb_exists. exists a. split; [apply Hincl; now left|].
        apply Nat.eqb_refl. }
      rewrite Ea. simpl. apply IH. intros x Hx. apply Hincl. now right. }
    apply Hsub, incl_refl. }
  rewrite E1. simpl.
  apply forallb_filter_id.
  apply forallb_forall. intros id Hin. apply in_seq in Hin.
  apply negb_true_iff, not_true_is_false. intros E.
  apply existsb_exists in E. destruct E as (x & Hx & Ex).
  apply Nat.eqb_eq in Ex. subst x.
  unfold graph_wf in Hg. rewrite Forall_forall in Hg. apply Hg in Hx. lia.
Qed.
End Collection.

(** ** Views *)

Lemma transpose_shape {X} (n : nat) (rows : list (list X)) :
  Forall (fun r => length r = n) rows ->
  shape2 n (length rows) (transpose n rows).
Proof.
  revert rows. induction n as [|n IH]; intros rows Hr; simpl.
  - split; [reflexivity | constructor].
  - assert (Hh : length (flat_map (firstn 1) rows) = length rows).
    { clear IH. induction Hr as [|r rows Er _ IHr]; simpl; [reflexivity|].
      destruct r; simpl in *; [discriminate | now rewrite IHr]. }
    assert (Ht : Forall (fun r => length r = n) (map (@tl X) rows)).
    { apply Forall_map. eapply Forall_impl; [|exact Hr].
      intros r E. destruct r; simpl in *; [discriminate | lia]. }
    destruct (IH _ Ht) as [Hl Hf]. rewrite length_map in Hf. split.
    + simpl. now rewrite Hl.
    + constructor; assumption.
Qed.

Lemma tf_split_views {X} (n b : nat) (rows : list (list X)) :
  (0 < n)%nat -> shape2 b n rows ->
  tf_split (concat (transpose n rows)) n = Ok (transpose n rows)
  /\ shape2 n b (transpose n rows).
Proof.
  intros Hn [Hl Hr]. destruct (transpose_shape Hr) as [Tl Tr]. rewrite Hl in Tr.
  split; [|now split].
  unfold tf_split. rewrite (length_concat_uniform Tr), Tl, (Nat.mul_comm n b).
  destruct (Nat.eqb_spec n 0) as [E|_]; [lia|].
  rewrite Nat.Div0.mod_mul, Nat.div_mul by lia. simpl.
  f_equal. rewrite <- Tl at 1. now apply chunks_concat.
Qed.

Lemma length_interleave {A} (xy : list (list A)) (b : nat) :
  length (interleave xy b) = length xy.
Proof.
  unfold interleave, interleave_with.
  now rewrite length_map, length_exchange, length_map.
Qed.

Lemma head_or_raise_ok {X} (l : list X) :
  l <> [] -> exists x, head_or_raise l = Ok x.
Proof. destruct l; [congruence | simpl; eauto]. Qed.

(** ** The structure of a step *)

Section ModelFacts.
Context {S : Type} `{Scalar S}.
Variable Img : Type.
Variable nclass : nat.
Variable self_classifier : kwargs_t -> bool -> images Img -> tensor2 S.
Variable n_update_ops : nat.
Variable MixMode : string -> result (augmenter (S := S) Img).
Variable model_vars : option string -> list string.
Variable p_data_has_update : bool.

Local Abbreviation classifier' := (classifier self_classifier n_update_ops).
Local Abbreviation model_with' :=
  (model_with nclass self_classifier n_update_ops MixMode model_vars
              p_data_has_update).
Local Abbreviation model' :=
  (model nclass self_classifier n_update_ops MixMode model_vars
         p_data_has_update).
Local Abbreviation train_ops' := (train_ops model_vars p_data_has_update).
Local Abbreviation stages' := (stages nclass self_classifier n_update_ops MixMode).
Local Abbreviation passes' := (passes self_classifier n_update_ops).
Local Abbreviation after_pass' := (after_pass n_update_ops).
Local Abbreviation after_passes' := (after_passes n_update_ops).

(** A step that is built went through every stage. *)
Lemma model_with_inv G cfg (feed : feeds Img) g0 out g1 :
  model_with' G cfg feed g0 = Ok (out, g1) ->
  exists augment ys guess ga m s,
    stages' G cfg feed g0 g1 augment ys guess ga m s
    /\ out = {| train_op := train_ops' cfg feed guess m s |}.
Proof.
  unfold model_with, stages, bind, lift, call_with_kwargs, raise, ret.
  destruct (tf_placeholder [batch cfg]); [|discriminate].
  destruct (tf_placeholder [batch cfg; nu cfg]); [|discriminate].
  destruct (MixMode (mixmode cfg)) as [augment|]; [|discriminate].
  destruct (tf_split _ _) as [ys|]; [|discriminate].
  destruct (existsb _ _) eqn:Hkw; [discriminate|].
  destruct (G ys _ _ g0) as [[guess ga]|] eqn:HG; [|discriminate].
  destruct (mix _ _ _ _ _ _) as [m|] eqn:Hm; [|discriminate].
  destruct (passes _ _ _ _ _) as [[s g1']|] eqn:Hp; [|discriminate].
  destruct (tf_minimize _); [|discriminate].
  rewrite classifier_eval.
  destruct (has_key "training" (kwargs cfg)) eqn:Ht; [discriminate|].
  cbn [existsb]. rewrite orb_false_r.
  destruct (has_key "getter" (kwargs cfg)); [discriminate|].
  rewrite classifier_eval, Ht.
  intros [= <- <-].
  exists augment, ys, guess, ga, m, s. repeat split; auto.
Qed.

(** The three kinds of operation in [train_op]. *)
Lemma update_op_ids_map (l : list nat) :
  update_op_ids (S := S) (map UpdateOp l) = l.
Proof. induction l as [|a l IH]; simpl; [reflexivity | now rewrite IH]. Qed.

Lemma no_update_op_in_weight_decay w :
  update_op_ids (S := S) (weight_decay_ops model_vars w) = [].
Proof.
  unfold weight_decay_ops.
  induction (filter _ _) as [|a l IH]; simpl; auto.
Qed.

Lemma no_minimize_in_weight_decay w :
  minimized (S := S) (weight_decay_ops model_vars w) = [].
Proof.
  unfold weight_decay_ops.
  induction (filter _ _) as [|a l IH]; simpl; auto.
Qed.

Lemma assigns_weight_decay w :
  assigns (S := S) (weight_decay_ops model_vars w)
  = map (fun v => (v, 1 - w))
        (filter (contains "kernel") (model_vars (Some "classify"%string))).
Proof.
  unfold weight_decay_ops.
  induction (filter _ _) as [|a l IH]; simpl; [reflexivity | now rewrite IH].
Qed.

Lemma update_op_ids_app (a b : list (op S)) :
  update_op_ids (a ++ b) = update_op_ids a ++ update_op_ids b.
Proof. apply flat_map_app. Qed.

Lemma minimized_app (a b : list (op S)) :
  minimized (a ++ b) = minimized a ++ minimized b.
Proof. apply flat_map_app. Qed.

Lemma assigns_app (a b : list (op S)) :
  assigns (a ++ b) = assigns a ++ assigns b.
Proof. apply flat_map_app. Qed.

Lemma no_minimize_in_updates (l : list nat) :
  minimized (S := S) (map UpdateOp l) = [].
Proof. induction l; simpl; auto. Qed.

Lemma no_assign_in_updates (l : list nat) :
  assigns (S := S) (map UpdateOp l) = [].
Proof. induction l; simpl; auto. Qed.

Lemma update_op_ids_train_ops cfg (feed : feeds Img) g m s :
  update_op_ids (train_ops' cfg feed g m s) = bn_ops s.
Proof.
  unfold train_ops. cbv zeta.
  change (update_op_ids (Minimize ?a ?b :: ?l)) with (update_op_ids l).
  rewrite !update_op_ids_app, update_op_ids_map, no_update_op_in_weight_decay.
  destruct p_data_has_update; simpl; now rewrite app_nil_r.
Qed.

Lemma minimized_train_ops cfg (feed : feeds Img) g m s :
  minimized (train_ops' cfg feed g m s)
  = [s_add (loss_xe m s)
           (s_mul (of_R (ramped_w_match (w_match cfg) (step feed) (warmup_kimg cfg)))
                  (loss_l2u m s))].
Proof.
  unfold train_ops. cbv zeta.
  change (minimized (Minimize ?a ?b :: ?l)) with (b :: minimized l).
  f_equal.
  rewrite !minimized_app, no_minimize_in_weight_decay, no_minimize_in_updates.
  destruct p_data_has_update; reflexivity.
Qed.

Lemma assigns_train_ops cfg (feed : feeds Img) g m s :
  assigns (train_ops' cfg feed g m s)
  = map (fun v => (v, 1 - wd cfg * lr cfg))
        (filter (contains "kernel") (model_vars (Some "classify"%string))).
Proof.
  unfold train_ops. cbv zeta.
  change (assigns (Minimize ?a ?b :: ?l)) with (assigns l).
  rewrite !assigns_app, assigns_weight_decay, no_assign_in_updates.
  destruct p_data_has_update; reflexivity.
Qed.

(** C4: whatever the configuration, the step calls the guesser with the
    temperature 0.5: it is unchanged when the guesser is made to ignore
    the temperature it is given and to use 0.5.  A configuration that
    carries a keyword [T] does not select another temperature: the call
    of line 94 then binds [T] twice and the construction fails. *)
Theorem guess_temperature_is_half G cfg (feed : feeds Img) g0 :
  model_with' G cfg feed g0
  = model_with' (fun y c _ => G y c (1 / 2)) cfg feed g0
  /\ (has_key "T" (kwargs cfg) = true ->
      exists e, model_with' G cfg feed g0 = Err e).
Proof.
  split; [reflexivity|].
  intros HT. unfold model_with, bind, lift, call_with_kwargs, raise.
  destruct (tf_placeholder [batch cfg]); [|eauto].
  destruct (tf_placeholder [batch cfg; nu cfg]); [|eauto].
  destruct (MixMode (mixmode cfg)); [|eauto].
  destruct (tf_split _ _); [|eauto].
  simpl. rewrite HT, !orb_true_r. eauto.
Qed.

(** C5: the assignments of a step multiply by [1 - wd * lr] the value of
    every classifier variable whose name contains [kernel] and leave the
    value of every other variable as it was. *)
Theorem weight_decay_kernels_only cfg (feed : feeds Img) g0 out g1 (st : store) :
  NoDup (model_vars (Some "classify"%string)) ->
  model' cfg feed g0 = Ok (out, g1) ->
  forall v,
    run_assigns (assigns (train_op out)) st v
    = if existsb (String.eqb v) (model_vars (Some "classify"%string))
         && contains "kernel" v
      then map (fun x => x * (1 - wd cfg * lr cfg)) (st v)
      else st v.
Proof.
  intros Hnd Hrun v.
  apply model_with_inv in Hrun.
  destruct Hrun as (augment & ys & guess & ga & m & s & _ & ->).
  cbn [train_op]. rewrite assigns_train_ops, run_assigns_scale.
  - rewrite existsb_filter. reflexivity.
  - now apply NoDup_filter.
Qed.
Lemma head_or_raise_inv {X} (l : list X) x :
  head_or_raise l = Ok x -> l = x :: tl l.
Proof. destruct l; simpl; [discriminate | now intros [= ->]]. Qed.

Lemma passes_inv cfg (m : mixed Img) ga s g1 :
  passes' cfg m ga = Ok (s, g1) ->
  exists batch0 rest,
    batches m = batch0 :: rest
    /\ has_key "training" (kwargs cfg) = false
    /\ bn_ops s = filter (fun v => negb (existsb (Nat.eqb v) (update_ops ga)))
                         (update_ops (after_pass' ga))
    /\ g1 = after_passes' (length rest) (after_pass' ga)
    /\ let logits := interleave (self_classifier (kwargs cfg) true batch0
                                 :: map (self_classifier (kwargs cfg) true) rest)
                                (Z.to_nat (batch cfg)) in
       head_or_raise logits = Ok (logits_x s)
       /\ tf_concat (tl logits) = Ok (logits_y s).
Proof.
  unfold passes, get_update_ops. unfold bind at 1. unfold bind at 1. unfold lift at 1.
  destruct (head_or_raise (batches m)) as [batch0|] eqn:Eh; [|discriminate].
  apply head_or_raise_inv in Eh.
  unfold bind at 1.
  destruct (classifier' (kwargs cfg) batch0 true ga) as [[l0 gb]|] eqn:E0; [|discriminate].
  apply classifier_inv in E0. destruct E0 as (Hkw & -> & ->).
  unfold bind at 1. unfold bind at 1.
  destruct (mapM _ (tl (batches m)) _) as [[ls g2]|] eqn:E1; [|discriminate].
  apply mapM_classifier_inv in E1. destruct E1 as [-> ->].
  unfold bind at 1. unfold lift at 1.
  destruct (head_or_raise (interleave _ _)) as [lgx|] eqn:Ex; [|discriminate].
  unfold bind at 1. unfold lift at 1.
  destruct (tf_concat _) as [lgy|] eqn:Ey; [|discriminate].
  unfold ret. intros [= <- <-]. simpl.
  exists batch0, (tl (batches m)). repeat split; auto.
Qed.

Lemma guess_label_graph (ys : list (images Img)) kw T g0 r ga :
  guess_label nclass ys (classifier' kw) T g0 = Ok (r, ga) ->
  ga = after_passes' (length ys) g0.
Proof.
  unfold guess_label. unfold bind at 1.
  destruct (mapM _ ys g0) as [[ls g2]|] eqn:E1; [|discriminate].
  apply mapM_classifier_inv in E1. destruct E1 as [-> ->].
  unfold bind, lift, ret.
  destruct (tf_concat _); [|discriminate].
  destruct (tf_reshape3 _ _ _); [|discriminate].
  destruct (sharpen _ _); [|discriminate].
  now intros [= _ <-].
Qed.

(** C6: of all the update operations in the collection when the step is
    built, [train_op] runs those the forward pass over the first
    interleaved batch registered, and no other: not those registered
    before it (by the guesser's passes or earlier) and not those the
    passes over the remaining batches register after it. *)
Theorem bn_updates_first_batch_only cfg (feed : feeds Img) g0 out g1 :
  graph_wf g0 ->
  model' cfg feed g0 = Ok (out, g1) ->
  exists augment ys guess ga m s batch0 rest later,
    stages' (guess_label nclass) cfg feed g0 g1 augment ys guess ga m s
    /\ batches m = batch0 :: rest
    /\ classifier' (kwargs cfg) batch0 true ga
       = Ok (self_classifier (kwargs cfg) true batch0, after_pass' ga)
    /\ mapM (fun b => classifier' (kwargs cfg) b true) rest (after_pass' ga)
       = Ok (map (self_classifier (kwargs cfg) true) rest, g1)
    /\ update_ops (after_pass' ga) = update_ops ga ++ update_op_ids (train_op out)
    /\ update_ops g1 = update_ops (after_pass' ga) ++ later
    /\ length later = (length rest * n_update_ops)%nat
    /\ forall id, In id (update_ops ga) \/ In id later ->
                  ~ In id (update_op_ids (train_op out)).
Proof.
  intros Hwf Hrun. unfold model in Hrun. apply model_with_inv in Hrun.
  destruct Hrun as (augment & ys & guess & ga & m & s & Hst & ->).
  pose proof Hst as (_ & _ & _ & HG & _ & Hp).
  apply guess_label_graph in HG.
  assert (Hga : graph_wf ga) by (subst ga; now apply after_passes_wf).
  apply passes_inv in Hp.
  destruct Hp as (batch0 & rest & Hb & Hkw & Hbn & Hg1 & _).
  rewrite (new_update_ops n_update_ops Hga) in Hbn.
  exists augment, ys, guess, ga, m, s, batch0, rest,
         (seq (next_op (after_pass' ga)) (length rest * n_update_ops)).
  cbn [train_op]. rewrite update_op_ids_train_ops, Hbn.
  split; [exact Hst|]. split; [exact Hb|].
  split; [now apply classifier_runs|].
  split; [rewrite Hg1; now apply mapM_classifier_runs|].
  split; [reflexivity|].
  split; [rewrite Hg1; apply after_passes_ops|].
  split; [apply length_seq|].
  intros id [Hin|Hin] Hin'; apply in_seq in Hin'.
  - unfold graph_wf in Hga. rewrite Forall_forall in Hga. apply Hga in Hin. lia.
  - apply in_seq in Hin. simpl in Hin. lia.
Qed.
(** What the guesser does, case by case. *)
Lemma guess_label_outcome kw (views : list (images Img)) (T : R) g :
  has_key "training" kw = false ->
  guess_label nclass views (classifier' kw) T g
  = match tf_concat (map (self_classifier kw true) views) with
    | Err e => Err e
    | Ok logits =>
        match tf_reshape3 (length views) nclass (tf_softmax logits) with
        | Err e => Err e
        | Ok P =>
            match sharpen (tf_reduce_mean0 P) T with
            | Err e => Err e
            | Ok q => Ok ({| p_target := q; p_model := tf_reduce_mean0 P |},
                          after_passes' (length views) g)
            end
        end
    end.
Proof.
  intros Hkw. unfold guess_label. unfold bind at 1.
  rewrite (mapM_classifier_runs self_classifier n_update_ops kw views g Hkw).
  unfold bind, lift, ret.
  destruct (tf_concat _) as [logits|]; [|reflexivity].
  destruct (tf_reshape3 _ _ _) as [P|]; [|reflexivity].
  destruct (sharpen _ _); reflexivity.
Qed.

Lemma guess_label_training_kw kw (ys : list (images Img)) (T : R) g :
  has_key "training" kw = true -> ys <> [] ->
  guess_label nclass ys (classifier' kw) T g = Err TypeError.
Proof.
  intros Hkw Hne. destruct ys as [|y ys]; [congruence|].
  unfold guess_label, bind. simpl. unfold bind, classifier, call_with_kwargs.
  simpl. rewrite Hkw. reflexivity.
Qed.

Lemma tf_reshape3_error (n c : nat) (t : tensor2 S) e :
  tf_reshape3 n c t = Err e -> e = ValueError.
Proof.
  unfold tf_reshape3. destruct (_ =? 0)%nat; [now intros [= <-]|].
  destruct (_ =? 0)%nat; [discriminate | now intros [= <-]].
Qed.

Lemma sharpen_outcome (p : tensor2 S) (T : R) :
  (T = 0 -> sharpen p T = Err ZeroDivisionError)
  /\ (T <> 0 -> exists q, sharpen p T = Ok q).
Proof.
  unfold sharpen. split.
  - intros ->. now rewrite py_div_zero.
  - intros HT. rewrite py_div_ok by assumption. eauto.
Qed.

Lemma mix_batches cfg (feed : feeds Img) augment ys ly m :
  mix nclass cfg feed augment ys ly = Ok m ->
  length (batches m)
  = length (fst (augment (xt_in feed :: ys)
                         (tf_one_hot (l_in feed) nclass
                          :: repeat ly (Z.to_nat (nu cfg)))
                         [beta cfg; beta cfg])).
Proof.
  unfold mix. destruct (augment _ _ _) as [xy lxy]. simpl.
  destruct xy as [|x y]; [discriminate|]. cbn [head_or_raise tl].
  destruct (head_or_raise lxy); [|discriminate].
  destruct (tf_concat _); [|discriminate].
  intros [= <-]. cbn [batches]. now rewrite length_interleave.
Qed.

(** The converse of [model_with_inv]: once the mixed batches have been
    passed through the classifier, what is left is the optimizer and the
    evaluation heads. *)
Lemma model_with_outcome G cfg (feed : feeds Img) g0 g1 augment ys guess ga m s :
  (0 <= batch cfg)%Z -> (0 <= nu cfg)%Z ->
  stages' G cfg feed g0 g1 augment ys guess ga m s ->
  model_with' G cfg feed g0
  = match model_vars None with
    | [] => Err ValueError
    | _ :: _ =>
        if has_key "getter" (kwargs cfg) then Err TypeError
        else Ok ({| train_op := train_ops' cfg feed guess m s |}, g1)
    end.
Proof.
  intros Hb Hn (HM & Hs & Hkw & HG & Hm & Hp).
  assert (Ht : has_key "training" (kwargs cfg) = false).
  { pose proof Hp as Hp'. apply passes_inv in Hp'.
    now destruct Hp' as (_ & _ & _ & Ht & _). }
  unfold model_with, bind, lift, call_with_kwargs, tf_placeholder, raise. simpl.
  apply Z.leb_le in Hb, Hn. rewrite Hb, Hn. simpl.
  rewrite HM, Hs.
  simpl in Hkw. rewrite Hkw, HG, Hm, Hp.
  destruct (model_vars None); [reflexivity|]. simpl.
  rewrite classifier_eval, Ht. rewrite orb_false_r.
  destruct (has_key "getter" (kwargs cfg)); [reflexivity|].
  rewrite classifier_eval, Ht. reflexivity.
Qed.

Lemma model_with_runs G cfg (feed : feeds Img) g0 g1 augment ys guess ga m s :
  (0 <= batch cfg)%Z -> (0 <= nu cfg)%Z ->
  model_vars None <> [] -> has_key "getter" (kwargs cfg) = false ->
  stages' G cfg feed g0 g1 augment ys guess ga m s ->
  model_with' G cfg feed g0 = Ok ({| train_op := train_ops' cfg feed guess m s |}, g1).
Proof.
  intros Hb Hn Hv Hget Hst. rewrite (model_with_outcome Hb Hn Hst), Hget.
  destruct (model_vars None); [congruence | reflexivity].
Qed.

(** C8, as the code has it: nothing is validated, and an error is the
    error of the operation that cannot proceed.  A step with [nu <= 0] is
    not built: a tensor shape is refused with ValueError, unless the
    mixing mode was refused before.  The guesser, with a classifier whose
    calls return, fails with ValueError when it has no views, when the
    logits of the views differ in width, or when the predictions cannot
    be reshaped to [[nu, -1, nclass]]; with TypeError when the extra
    keyword arguments of the classifier bind [training]; with
    ZeroDivisionError, from [1. / T], when [T = 0].  In every other case,
    a negative temperature or views of different sizes included, it
    returns a result. *)
Theorem construction_failures G cfg (feed : feeds Img) g0 kw
    (views : list (images Img)) (T : R) g :
  ((nu cfg <= 0)%Z ->
   model_with' G cfg feed g0 = Err ValueError
   \/ exists e, MixMode (mixmode cfg) = Err e
                /\ model_with' G cfg feed g0 = Err e)
  /\ let logits := concat (map (self_classifier kw true) views) in
     let reshaped := tf_reshape3 (length views) nclass (tf_softmax logits) in
     let outcome := guess_label nclass views (classifier' kw) T g in
     (views = [] -> outcome = Err ValueError)
     /\ (views <> [] -> has_key "training" kw = true -> outcome = Err TypeError)
     /\ (views <> [] -> has_key "training" kw = false ->
         (same_width logits = false -> outcome = Err ValueError)
         /\ (same_width logits = true ->
             (forall e, reshaped = Err e -> outcome = Err ValueError)
             /\ (forall P, reshaped = Ok P -> T = 0 ->
                   outcome = Err ZeroDivisionError)
             /\ (forall P, reshaped = Ok P -> T <> 0 ->
                   exists r, outcome = Ok (r, after_passes' (length views) g)))).
Proof.
  split.
  - intros Hnu. unfold model_with, bind, lift, call_with_kwargs, raise, tf_placeholder.
    destruct (forallb _ [batch cfg]); [|now left].
    destruct (forallb _ [batch cfg; nu cfg]); [|now left].
    destruct (MixMode (mixmode cfg)) as [augment|e]; [|right; eauto].
    assert (E0 : Z.to_nat (nu cfg) = 0%nat) by lia.
    rewrite E0. unfold tf_split. simpl. now left.
  - intros logits reshaped outcome. unfold outcome. split; [|split].
    + intros ->. reflexivity.
    + intros Hne Hkw. now apply guess_label_training_kw.
    + intros Hne Hkw. rewrite guess_label_outcome by exact Hkw.
      assert (Ec : tf_concat (map (self_classifier kw true) views)
                   = if same_width logits then Ok logits else Err ValueError).
      { destruct views; [congruence | reflexivity]. }
      rewrite Ec. split.
      * now intros ->.
      * intros ->. fold reshaped. repeat split.
        -- intros e He. rewrite He. now rewrite (tf_reshape3_error _ _ _ He).
        -- intros P -> HT. now rewrite (proj1 (sharpen_outcome _ T) HT).
        -- intros P -> HT.
           destruct (proj2 (sharpen_outcome (tf_reduce_mean0 P) T) HT) as [q ->]. eauto.
Qed.


End ModelFacts.

(** ** Dual numbers carry derivatives *)

Lemma jet_const (c t : R) : jet (fun _ => c) t (of_R c).
Proof. split; [reflexivity | apply derivable_pt_lim_const]. Qed.

Lemma jet_add f g t x y :
  jet f t x -> jet g t y -> jet (fun u => f u + g u) t (s_add x y).
Proof.
  intros [Ex Dx] [Ey Dy]. split; simpl.
  - now rewrite Ex, Ey.
  - now apply (derivable_pt_lim_plus f g).
Qed.

Lemma jet_sub f g t x y :
  jet f t x -> jet g t y -> jet (fun u => f u - g u) t (s_sub x y).
Proof.
  intros [Ex Dx] [Ey Dy]. split; simpl.
  - now rewrite Ex, Ey.
  - now apply (derivable_pt_lim_minus f g).
Qed.

Lemma jet_mul f g t x y :
  jet f t x -> jet g t y -> jet (fun u => f u * g u) t (s_mul x y).
Proof.
  intros [Ex Dx] [Ey Dy]. split; simpl.
  - now rewrite Ex, Ey.
  - rewrite Ex, Ey. now apply (derivable_pt_lim_mult f g).
Qed.

Lemma jet_div f g t x y :
  g t <> 0 ->
  jet f t x -> jet g t y -> jet (fun u => f u / g u) t (s_div x y).
Proof.
  intros Hg [Ex Dx] [Ey Dy]. split; simpl.
  - now rewrite Ex, Ey.
  - rewrite Ex, Ey.
    replace (g t * g t) with (Rsqr (g t)) by reflexivity.
    replace (tangent x * g t - f t * tangent y)
      with (tangent x * g t - tangent y * f t) by ring.
    now apply (derivable_pt_lim_div f g).
Qed.

Lemma jet_exp f t x : jet f t x -> jet (fun u => exp (f u)) t (s_exp x).
Proof.
  intros [Ex Dx]. split; simpl.
  - now rewrite Ex.
  - rewrite Ex. rewrite Rmult_comm.
    apply (derivable_pt_lim_comp f exp); [exact Dx | apply derivable_pt_lim_exp].
Qed.

Lemma jet_log f t x : 0 < f t -> jet f t x -> jet (fun u => ln (f u)) t (s_log x).
Proof.
  intros Hf [Ex Dx]. split; simpl.
  - now rewrite Ex.
  - rewrite Ex. unfold Rdiv. rewrite Rmult_comm.
    apply (derivable_pt_lim_comp f ln); [exact Dx | now apply derivable_pt_lim_ln].
Qed.

Lemma jet_stop f t x : jet f t x -> jet (fun _ => f t) t (s_stop x).
Proof.
  intros [Ex _]. split; simpl; [exact Ex | apply derivable_pt_lim_const].
Qed.

Lemma stop_gradient_spec (t : tensor2 dual) :
  map (map primal) (tf_stop_gradient t) = map (map primal) t
  /\ Forall (Forall (fun d => tangent d = 0)) (tf_stop_gradient t).
Proof.
  unfold tf_stop_gradient. split.
  - rewrite map_map. apply map_ext. intros r. rewrite map_map. now apply map_ext.
  - apply Forall_map, Forall_forall. intros r _.
    apply Forall_map, Forall_forall. now intros d _.
Qed.

Lemma jet_pow f g t x y :
  0 < f t ->
  jet f t x -> jet g t y -> jet (fun u => Rpower (f u) (g u)) t (s_pow x y).
Proof.
  intros Hf Hx Hy.
  destruct (jet_exp (jet_mul Hy (jet_log Hf Hx))) as [E D].
  pose proof Hx as [Ex _]. pose proof Hy as [Ey _].
  assert (Ep : pow_R (primal x) (primal y) = exp (g t * ln (f t))).
  { rewrite Ex, Ey. unfold pow_R. destruct (Req_dec_T (f t) 0); [lra | reflexivity]. }
  split.
  - simpl. exact Ep.
  - unfold Rpower.
    replace (tangent (s_pow x y))
      with (tangent (s_exp (s_mul y (s_log x)))); [exact D|].
    simpl. rewrite Ep, Ex, Ey. unfold Rdiv. ring.
Qed.

(** ** Gradients *)

Lemma stop_gradient_idem (t : tensor2 dual) :
  tf_stop_gradient (tf_stop_gradient t) = tf_stop_gradient t.
Proof.
  unfold tf_stop_gradient. rewrite map_map. apply map_ext. intros r.
  rewrite map_map. apply map_ext. intros x. reflexivity.
Qed.

Lemma stop_gradient_values (t t' : tensor2 dual) :
  values t = values t' -> tf_stop_gradient t = tf_stop_gradient t'.
Proof.
  intros E.
  assert (F : forall u, tf_stop_gradient u = map (map (fun v => (v, 0))) (values u)).
  { intros u. unfold tf_stop_gradient, values. rewrite map_map. apply map_ext.
    intros r. rewrite map_map. reflexivity. }
  now rewrite !F, E.
Qed.

Lemma values_stop_gradient (t : tensor2 dual) : values (tf_stop_gradient t) = values t.
Proof.
  unfold tf_stop_gradient, values. rewrite map_map. apply map_ext.
  intros r. rewrite map_map. reflexivity.
Qed.

Lemma detached_agrees {A B C} (G : A -> B -> C -> build (guess dual)) y c T g :
  agree_in_value (G y c T g) (detached G y c T g).
Proof.
  unfold detached, bind, ret. destruct (G y c T g) as [[r g']|e]; simpl; [|reflexivity].
  split; [reflexivity|]. symmetry. apply values_stop_gradient.
Qed.

Section Gradient.
Variable Img : Type.
Variable nclass : nat.
Variable self_classifier : kwargs_t -> bool -> images Img -> tensor2 dual.
Variable n_update_ops : nat.
Variable MixMode : string -> result (augmenter (S := dual) Img).
Variable model_vars : option string -> list string.
Variable p_data_has_update : bool.

Local Abbreviation model_with' :=
  (model_with nclass self_classifier n_update_ops MixMode model_vars
              p_data_has_update).

(** C7: the loss handed to the optimizer, with its derivative along any
    direction of the classifier parameters, does not depend on the
    derivatives carried by the guess: two guessers whose targets have the
    same values, with whatever derivatives, give the same loss and the
    same derivative of the loss.  Nothing of the derivative of the guess
    reaches the loss. *)
Theorem loss_gradient_ignores_guesser G G' cfg (feed : feeds Img) g0 :
  (forall ys, agree_in_value
                (G ys (classifier self_classifier n_update_ops (kwargs cfg)) (1 / 2) g0)
                (G' ys (classifier self_classifier n_update_ops (kwargs cfg)) (1 / 2) g0)) ->
  step_loss (model_with' G cfg feed g0) = step_loss (model_with' G' cfg feed g0).
Proof.
  intros Hagree.
  unfold model_with, bind, lift, call_with_kwargs, raise, ret.
  destruct (tf_placeholder [batch cfg]); [|reflexivity].
  destruct (tf_placeholder [batch cfg; nu cfg]); [|reflexivity].
  destruct (MixMode (mixmode cfg)) as [augment|]; [|reflexivity].
  destruct (tf_split _ _) as [ys|]; [|reflexivity].
  destruct (existsb _ _); [reflexivity|].
  specialize (Hagree ys). unfold agree_in_value in Hagree.
  destruct (G ys _ _ g0) as [[guess ga]|e], (G' ys _ _ g0) as [[guess' ga']|e'];
    try contradiction; [|now subst].
  destruct Hagree as [<- Hv]. rewrite (stop_gradient_values _ _ Hv).
  destruct (mix _ _ _ _ _ _) as [m|]; [|reflexivity].
  destruct (passes _ _ _ _ _) as [[s g1]|]; [|reflexivity].
  destruct (tf_minimize _); [|reflexivity].
  destruct (classifier _ _ _ _ _ _) as [[l1 g2]|]; [|reflexivity].
  destruct (existsb _ _); [reflexivity|].
  destruct (classifier _ _ _ _ _ _) as [[l2 g3]|]; [|reflexivity].
  unfold step_loss. cbn [train_op]. now rewrite !minimized_train_ops.
Qed.
End Gradient.

(** ** Losses *)







Section Loss.
Variable Img : Type.
Variable nclass : nat.
Variable self_classifier : kwargs_t -> bool -> images Img -> tensor2 R.
Variable n_update_ops : nat.
Variable MixMode : string -> result (augmenter (S := R) Img).
Variable model_vars : option string -> list string.
Variable p_data_has_update : bool.

Local Abbreviation model' :=
  (model nclass self_classifier n_update_ops MixMode model_vars
         p_data_has_update).
Local Abbreviation stages' := (stages nclass self_classifier n_update_ops MixMode).

End Loss.

(** ** The small instance, run *)

Lemma ex_run :
  exists out g1,
    model 2 ex_classifier 2 ex_MixMode ex_model_vars false ex_cfg ex_feed ex_graph
    = Ok (out, g1).
Proof.
  unfold model. do 2 eexists.
  eapply model_with_runs; [simpl; lia | simpl; lia | discriminate | reflexivity |].
  unfold stages. split; [reflexivity|]. split; [reflexivity|]. split; [reflexivity|].
  split.
  { rewrite guess_label_outcome by reflexivity.
    simpl.
    rewrite sharpen_rows by lra. reflexivity. }
  split; [reflexivity|].
  unfold passes, bind, lift, get_update_ops, ret. simpl. reflexivity.
Qed.

Lemma ex_graph_wf : graph_wf ex_graph.
Proof. constructor. Qed.

Lemma ex_vars_nodup : NoDup (ex_model_vars (Some "classify"%string)).
Proof.
  unfold ex_model_vars. repeat constructor; simpl; intuition discriminate.
Qed.

Lemma ex_classifier_runs (x : images nat) g :
  exists g', classifier ex_classifier 2 [] x true g
             = Ok (ex_classifier [] true x, g').
Proof. eexists. now apply classifier_runs. Qed.

Lemma guess_label_spec_witness :
  exists r g',
    guess_label 2 [[3; 5]; [4; 6]]%nat (classifier ex_classifier 2 []) (1 / 2) ex_graph
    = Ok (r, g')
    /\ entry (p_model r) 0 0
       = spec_p_model (map (ex_classifier [] true) [[3; 5]; [4; 6]]%nat) 0 0
    /\ sum_list (nth 0%nat (p_target r) []) = 1.
Proof.
  destruct (guess_label_spec (nclass := 2) (ex_classifier [] true)
              (classifier ex_classifier 2 []) ex_classifier_runs
              (views := [[3; 5]; [4; 6]]%nat) (B := 2) (T := 1 / 2) ex_graph)
    as (r & g' & E & _ & _ & He & Hs).
  - lra.
  - discriminate.
  - lia.
  - repeat constructor.
  - exists r, g'. split; [exact E|]. split.
    + apply (He 0%nat 0%nat); lia.
    + apply Hs. lia.
Defined.


Lemma guess_temperature_is_half_witness :
  exists e,
    model_with 2 ex_classifier 2 ex_MixMode ex_model_vars false
      (guess_label 2)
      {| batch := 2; lr := 2 / 1000; wd := 2 / 100; ema := 999 / 1000;
         beta := 1 / 2; w_match := 100; warmup_kimg := 1024; nu := 2;
         mixmode := "xxy.yxy"; dbuf := 128; kwargs := [("T"%string, PyFloat 1)] |}
      ex_feed ex_graph
    = Err e.
Proof.
  apply guess_temperature_is_half. reflexivity.
Defined.

Lemma loss_gradient_ignores_guesser_witness :
  step_loss (model_with 2 ex_classifier_dual 2 ex_MixMode_dual ex_model_vars false
               (guess_label 2) ex_cfg ex_feed ex_graph)
  = step_loss (model_with 2 ex_classifier_dual 2 ex_MixMode_dual ex_model_vars false
                 (detached (guess_label 2)) ex_cfg ex_feed ex_graph).
Proof.
  apply loss_gradient_ignores_guesser. intros ys. apply detached_agrees.
Defined.

Lemma weight_decay_kernels_only_witness :
  exists out g1,
    model 2 ex_classifier 2 ex_MixMode ex_model_vars false ex_cfg ex_feed ex_graph
    = Ok (out, g1)
    /\ forall st : store,
         run_assigns (assigns (train_op out)) st "classify/conv/kernel:0"%string
         = map (fun x => x * (1 - 2 / 100 * (2 / 1000))) (st "classify/conv/kernel:0"%string)
         /\ run_assigns (assigns (train_op out)) st "classify/conv/bias:0"%string
            = st "classify/conv/bias:0"%string.
Proof.
  destruct ex_run as (out & g1 & E). exists out, g1. split; [exact E|].
  intros st.
  pose proof (weight_decay_kernels_only 2 ex_classifier 2 ex_MixMode ex_model_vars
                false ex_cfg ex_feed ex_graph st ex_vars_nodup E) as W.
  split; now rewrite W.
Defined.

Lemma bn_updates_first_batch_only_witness :
  exists out g1 later,
    model 2 ex_classifier 2 ex_MixMode ex_model_vars false ex_cfg ex_feed ex_graph
    = Ok (out, g1)
    /\ length later = 4%nat
    /\ forall id, In id later -> ~ In id (update_op_ids (train_op out)).
Proof.
  destruct ex_run as (out & g1 & E).
  pose proof E as E'. apply bn_updates_first_batch_only in E'; [|exact ex_graph_wf].
  destruct E'
    as (augment & ys & guess & ga & m & s & b0 & rest & later
        & Hst & Hb & _ & _ & _ & _ & Hl & Hd).
  exists out, g1, later. split; [exact E|]. split.
  - destruct Hst as (HM & Hys & _ & _ & Hm & _).
    injection HM as <-. injection Hys as <-.
    apply mix_batches in Hm. rewrite Hb in Hm. simpl in Hm.
    injection Hm as Hr. now rewrite Hl, Hr.
  - intros id Hin. apply Hd. now right.
Defined.

Lemma construction_failures_witness :
  (exists e,
     model_with 2 ex_classifier 2 ex_MixMode ex_model_vars false (guess_label 2)
       {| batch := 2; lr := 2 / 1000; wd := 2 / 100; ema := 999 / 1000;
          beta := 1 / 2; w_match := 100; warmup_kimg := 1024; nu := 0;
          mixmode := "xxy.yxy"; dbuf := 128; kwargs := [] |}
       ex_feed ex_graph = Err e)
  /\ guess_label 2 [[3; 5]; [4; 6]]%nat (classifier ex_classifier 2 []) 0 ex_graph
     = Err ZeroDivisionError
  /\ guess_label 2 [[3; 5]; [4; 6]]%nat
       (classifier ex_classifier 2 [("training"%string, PyInt 1)]) (1 / 2) ex_graph
     = Err TypeError.
Proof.
  split; [|split].
  - destruct (proj1 (construction_failures 2 ex_classifier 2 ex_MixMode ex_model_vars
                       false (guess_label 2)
                       {| batch := 2; lr := 2 / 1000; wd := 2 / 100;
                          ema := 999 / 1000; beta := 1 / 2; w_match := 100;
                          warmup_kimg := 1024; nu := 0; mixmode := "xxy.yxy";
                          dbuf := 128; kwargs := [] |}
                       ex_feed ex_graph [] [] 0 ex_graph)) as [E|(e & _ & E)].
    + simpl. lia.
    + exists ValueError. exact E.
    + exists e. exact E.
  - destruct (proj2 (construction_failures 2 ex_classifier 2 ex_MixMode ex_model_vars
                       false (guess_label 2) ex_cfg ex_feed ex_graph []
                       [[3; 5]; [4; 6]]%nat 0 ex_graph)) as (_ & _ & H3).
    destruct H3 as [_ H4]; [discriminate | reflexivity |].
    destruct H4 as (_ & Hz & _); [reflexivity|].
    eapply Hz; reflexivity.
  - destruct (proj2 (construction_failures 2 ex_classifier 2 ex_MixMode ex_model_vars
                       false (guess_label 2) ex_cfg ex_feed ex_graph
                       [("training"%string, PyInt 1)]
                       [[3; 5]; [4; 6]]%nat (1 / 2) ex_graph)) as (_ & H2 & _).
    apply H2; [discriminate | reflexivity].
Defined.

(** C8 as stated fails: a temperature [T <= 0] and views of different
    sizes are not rejected. *)
Lemma malformed_inputs_accepted :
  (-1 <= 0
   /\ exists r g',
        guess_label 2 [[3; 5]; [4; 6]]%nat (classifier ex_classifier 2 []) (-1) ex_graph
        = Ok (r, g'))
  /\ (length [3]%nat <> length [4; 5; 6]%nat
      /\ exists r g',
           guess_label 2 [[3]; [4; 5; 6]]%nat (classifier ex_classifier 2 []) (1 / 2)
             ex_graph
           = Ok (r, g')).
Proof.
  split; (split; [simpl; try lra; try lia|]).
  - rewrite guess_label_outcome by reflexivity. simpl.
    rewrite sharpen_rows by lra. eauto.
  - rewrite guess_label_outcome by reflexivity. simpl.
    rewrite sharpen_rows by lra. eauto.
Qed.

Lemma interleave_involutive_witness :
  interleave (interleave [[1; 2; 3]; [4; 5; 6]; [7; 8; 9]]%nat 3) 3
  = [[1; 2; 3]; [4; 5; 6]; [7; 8; 9]]%nat.
Proof.
  destruct (@interleave_involutive nat [[1; 2; 3]; [4; 5; 6]; [7; 8; 9]]%nat 3%nat)
    as (_ & _ & E & _).
  - discriminate.
  - repeat constructor.
  - exact E.
Defined.

(** * Further properties of the code *)

(** ** Sums and means of distributions *)

Lemma sum_list_map2_plus (a b : list R) :
  length a = length b ->
  sum_list (map2 Rplus a b) = sum_list a + sum_list b.
Proof.
  revert b. induction a as [|x a IH]; intros [|y b] E; simpl in *; try discriminate.
  - unfold s_zero. simpl. lra.
  - unfold map2 in *. simpl. rewrite IH by lia. lra.
Qed.

Lemma sum_list_le (f g : R -> R) (l : list R) :
  Forall (fun x => f x <= g x) l ->
  sum_list (map f l) <= sum_list (map g l).
Proof.
  induction 1 as [|x l Hx _ IH]; simpl; [lra|]. lra.
Qed.

Lemma sum_list_scale (c : R) (l : list R) :
  sum_list (map (fun x => x * c) l) = sum_list l * c.
Proof.
  induction l as [|x l IH]; simpl; [unfold s_zero; simpl; lra|]. rewrite IH. lra.
Qed.

Lemma sum_list_nonneg (l : list R) :
  Forall (fun x => 0 <= x) l -> 0 <= sum_list l.
Proof.
  induction 1 as [|x l Hx _ IH]; simpl; [unfold s_zero; simpl; lra | lra].
Qed.

(** ** Softmax rows *)

Lemma softmax_row_distribution (z : tensor1 R) :
  z <> [] ->
  Forall (fun x => 0 < x) (softmax_row z) /\ sum_list (softmax_row z) = 1.
Proof.
  intros Hz. unfold softmax_row. change (s_exp (S := R)) with exp.
  assert (Hs : 0 < sum_list (map exp z)).
  { apply sum_list_pos; [destruct z; simpl; congruence|].
    apply Forall_map, Forall_forall. intros; apply exp_pos. }
  split.
  - apply Forall_map, Forall_map, Forall_forall. intros x _. simpl.
    apply Rdiv_lt_0_compat; [apply exp_pos | exact Hs].
  - change (s_div (S := R)) with Rdiv. rewrite sum_list_div.
    unfold Rdiv. apply Rinv_r. lra.
Qed.

(** ** The mean over the views, row by row *)

Lemma nth_add2 b c (x y : tensor2 R) i :
  shape2 b c x -> shape2 b c y -> (i < b)%nat ->
  nth i (tf_add2 x y) [] = map2 Rplus (nth i x []) (nth i y []).
Proof.
  intros [Hx _] [Hy _] Hi. unfold tf_add2.
  now rewrite (nth_map2 _ _ _ [] [] []) by (congruence || lia).
Qed.

Lemma fold_add2_row_sum b c (gs : list (tensor2 R)) (g : tensor2 R) i :
  shape2 b c g -> Forall (shape2 b c) gs -> (i < b)%nat ->
  sum_list (nth i (fold_left tf_add2 gs g) [])
  = sum_list (nth i g []) + sum_list (map (fun t => sum_list (nth i t [])) gs).
Proof.
  intros Hg Hgs Hi. revert g Hg.
  induction Hgs as [|t gs Ht _ IH]; intros g Hg; simpl.
  - unfold s_zero. simpl. lra.
  - rewrite IH by (now apply shape2_add2).
    rewrite (nth_add2 Hg Ht Hi), sum_list_map2_plus.
    + lra.
    + now rewrite (shape2_row Hg Hi), (shape2_row Ht Hi).
Qed.

Lemma sum_list_const (c : R) (X : Type) (l : list X) :
  sum_list (map (fun _ => c) l) = INR (length l) * c.
Proof.
  induction l as [|x l IH]; [simpl; unfold s_zero; simpl; lra|].
  change (sum_list (map (fun _ => c) (x :: l))) with (c + sum_list (map (fun _ => c) l)).
  rewrite IH. change (length (x :: l)) with (Datatypes.S (length l)).
  rewrite S_INR. lra.
Qed.

(** The mean of tensors whose rows are distributions has rows that are
    distributions. *)
Lemma tf_reduce_mean0_distribution b c (L : list (tensor2 R)) i :
  L <> [] -> Forall (shape2 b c) L -> (i < b)%nat ->
  Forall (fun t => sum_list (nth i t []) = 1) L ->
  sum_list (nth i (tf_reduce_mean0 L) []) = 1.
Proof.
  intros Hne HL Hi Hsum. destruct L as [|g gs]; [congruence|].
  inversion HL as [|? ? Hg Hgs]; subst. inversion Hsum as [|? ? Sg Sgs]; subst.
  unfold tf_reduce_mean0.
  assert (Hsh : shape2 b c (fold_left tf_add2 gs g)) by (now apply fold_add2).
  pose proof Hsh as [Hl _].
  rewrite (nth_indep _ [] (map (fun s => s_div s (of_nat (length (g :: gs)))) []))
    by (rewrite length_map; lia).
  rewrite (map_nth (map (fun s => s_div s (of_nat (length (g :: gs)))))).
  change (fun s : R => s_div s (of_nat (length (g :: gs))))
    with (fun s : R => s / INR (length (g :: gs))).
  rewrite sum_list_div, (fold_add2_row_sum Hg Hgs Hi), Sg.
  assert (E : sum_list (map (fun t : tensor2 R => sum_list (nth i t [])) gs)
              = INR (length gs) * 1).
  { rewrite <- sum_list_const. f_equal. apply map_ext_in. intros t Ht.
    rewrite Forall_forall in Sgs. now apply Sgs. }
  rewrite E. change (length (g :: gs)) with (Datatypes.S (length gs)).
  rewrite S_INR. field. pose proof (pos_INR (length gs)). lra.
Qed.

(** ** Sharpening, row by row *)

(** On a row of positive entries the power is [Rpower]. *)
Lemma sharpen_row_positive (e : R) (row : tensor1 R) :
  Forall (fun x => 0 < x) row ->
  sharpen_row e row
  = map (fun x => Rpower x e / sum_list (map (fun y => Rpower y e) row)) row.
Proof.
  intros Hpos. unfold sharpen_row.
  assert (E : map (fun y => pow_R y e) row = map (fun y => Rpower y e) row).
  { apply map_ext_in. intros x Hx. rewrite Forall_forall in Hpos.
    now apply pow_R_pos, Hpos. }
  rewrite E, map_map. reflexivity.
Qed.

Lemma sum_Rpower_pos (e : R) (row : tensor1 R) :
  row <> [] -> 0 < sum_list (map (fun y => Rpower y e) row).
Proof.
  intros Hne. apply sum_list_pos; [destruct row; simpl; congruence|].
  apply Forall_map, Forall_forall. intros x _. unfold Rpower. apply exp_pos.
Qed.

Lemma sharpen_row_entries_positive (e : R) (row : tensor1 R) :
  Forall (fun x => 0 < x) row -> Forall (fun x => 0 < x) (sharpen_row e row).
Proof.
  intros Hpos. rewrite (sharpen_row_positive e Hpos).
  destruct row as [|x0 row']; [constructor|].
  apply Forall_map, Forall_forall. intros x _.
  apply Rdiv_lt_0_compat; [unfold Rpower; apply exp_pos|].
  apply sum_Rpower_pos. discriminate.
Qed.

Lemma Rpower_div (x s e : R) :
  0 < x -> 0 < s -> Rpower (x / s) e = Rpower x e / Rpower s e.
Proof.
  intros Hx Hs. unfold Rpower, Rdiv.
  rewrite ln_mult by (auto using Rinv_0_lt_compat).
  rewrite ln_Rinv by assumption.
  replace (e * (ln x + - ln s)) with (e * ln x + - (e * ln s)) by ring.
  now rewrite exp_plus, exp_Ropp.
Qed.

Lemma sharpen_row_compose (a b : R) (row : tensor1 R) :
  Forall (fun x => 0 < x) row ->
  sharpen_row b (sharpen_row a row) = sharpen_row (a * b) row.
Proof.
  intros Hpos. destruct row as [|x0 row'] eqn:Erow; [reflexivity|]. rewrite <- Erow in *.
  assert (Hne : row <> []) by (rewrite Erow; discriminate).
  rewrite (sharpen_row_positive b (sharpen_row_entries_positive a Hpos)).
  rewrite (sharpen_row_positive a Hpos), (sharpen_row_positive (a * b) Hpos).
  set (s1 := sum_list (map (fun y => Rpower y a) row)).
  set (s12 := sum_list (map (fun y => Rpower y (a * b)) row)).
  assert (Hs1 : 0 < s1) by (now apply sum_Rpower_pos).
  assert (Hs12 : 0 < s12) by (now apply sum_Rpower_pos).
  assert (Hp : 0 < Rpower s1 b) by (unfold Rpower; apply exp_pos).
  assert (Hx : forall x, In x row ->
             Rpower (Rpower x a / s1) b = Rpower x (a * b) / Rpower s1 b).
  { intros x Hin. rewrite Rpower_div, Rpower_mult; [reflexivity | | exact Hs1].
    unfold Rpower. apply exp_pos. }
  assert (Es : sum_list (map (fun y => Rpower y b)
                            (map (fun x => Rpower x a / s1) row))
               = s12 / Rpower s1 b).
  { rewrite map_map. unfold s12. rewrite <- sum_list_div. f_equal.
    rewrite map_map. apply map_ext_in. exact Hx. }
  rewrite Es, map_map. apply map_ext_in. intros x Hin.
  rewrite (Hx x Hin). field. split; lra.
Qed.

(** The largest entry of a distribution under sharpening. *)
Lemma sharpen_row_top (e m : R) (row : tensor1 R) :
  Forall (fun x => 0 < x) row -> sum_list row = 1 ->
  In m row -> Forall (fun x => x <= m) row ->
  let s := sum_list (map (fun y => Rpower y e) row) in
  (1 <= e -> m <= Rpower m e / s)
  /\ (e <= 1 -> Rpower m e / s <= m).
Proof.
  intros Hpos Hsum Hin Hmax s.
  assert (Hm : 0 < m) by (rewrite Forall_forall in Hpos; now apply Hpos).
  assert (Hne : row <> []) by (destruct row; [contradiction | discriminate]).
  assert (Hs : 0 < s) by (now apply sum_Rpower_pos).
  assert (Esplit : forall x, 0 < x -> Rpower x e = x * Rpower x (e - 1)).
  { intros x Hx. replace e with (1 + (e - 1)) at 1 by ring.
    now rewrite Rpower_plus, Rpower_1. }
  assert (Es : s = sum_list (map (fun x => x * Rpower x (e - 1)) row)).
  { unfold s. f_equal. apply map_ext_in. intros x Hx.
    rewrite Forall_forall in Hpos. now apply Esplit, Hpos. }
  assert (Hbound : sum_list (map (fun x => x * Rpower m (e - 1)) row)
                   = Rpower m (e - 1)).
  { rewrite sum_list_scale, Hsum. ring. }
  assert (Hpm : 0 < Rpower m (e - 1)) by (unfold Rpower; apply exp_pos).
  rewrite (Esplit m Hm). split; intros He.
  - assert (Hle : s <= Rpower m (e - 1)).
    { rewrite Es, <- Hbound. apply sum_list_le.
      rewrite Forall_forall in *. intros x Hx.
      apply Rmult_le_compat_l; [left; now apply Hpos|].
      apply Rle_Rpower_l; [lra|]. split; [now apply Hpos | now apply Hmax]. }
    apply Rmult_le_reg_r with s; [exact Hs|].
    unfold Rdiv. rewrite Rmult_assoc, Rinv_l by lra.
    rewrite Rmult_1_r. now apply Rmult_le_compat_l; [lra|].
  - assert (Hle : Rpower m (e - 1) <= s).
    { rewrite Es, <- Hbound. apply sum_list_le.
      rewrite Forall_forall in *. intros x Hx.
      apply Rmult_le_compat_l; [left; now apply Hpos|].
      replace (e - 1) with (- (1 - e)) by ring.
      rewrite !Rpower_Ropp. apply Rinv_le_contravar.
      - unfold Rpower. apply exp_pos.
      - apply Rle_Rpower_l; [lra|]. split; [now apply Hpos | now apply Hmax]. }
    apply Rmult_le_reg_r with s; [exact Hs|].
    unfold Rdiv. rewrite Rmult_assoc, Rinv_l by lra.
    rewrite Rmult_1_r. now apply Rmult_le_compat_l; [lra|].
Qed.

(** ** The guess, as a value *)

Lemma tensor2_ext b c (t t' : tensor2 R) :
  shape2 b c t -> shape2 b c t' ->
  (forall i j, (i < b)%nat -> (j < c)%nat -> entry t i j = entry t' i j) ->
  t = t'.
Proof.
  intros Ht Ht' E. pose proof Ht as [Hl _]. pose proof Ht' as [Hl' _].
  apply (nth_ext _ _ [] []); [congruence|].
  intros i Hi. rewrite Hl in Hi.
  apply (nth_ext _ _ 0 0).
  - now rewrite (shape2_row Ht Hi), (shape2_row Ht' Hi).
  - intros j Hj. rewrite (shape2_row Ht Hi) in Hj. now apply E.
Qed.

Section GuessFacts.
Variable Batch : Type.
Variable nclass : nat.
Variable net : Batch -> tensor2 R.
Variable clf : Batch -> bool -> build (tensor2 R).
Hypothesis clf_runs : forall x g, exists g', clf x true g = Ok (net x, g').

Lemma guess_label_value (views : list Batch) (B : nat) (T : R) (g : graph) :
  T <> 0 -> views <> [] -> (0 < nclass)%nat ->
  Forall (fun v => shape2 B nclass (net v)) views ->
  exists g',
    guess_label nclass views clf T g
    = Ok ({| p_target := map (sharpen_row (1 / T)) (views_mean net views);
             p_model := views_mean net views |}, g').
Proof.
  intros HT Hne Hc Hshape. unfold views_mean.
  set (L := map net views).
  assert (HL : Forall (shape2 B nclass) L) by (now apply Forall_map).
  assert (HLne : L <> []) by (unfold L; destruct views; simpl; congruence).
  set (P := map tf_softmax L).
  assert (HP : Forall (shape2 B nclass) P).
  { apply Forall_map. eapply Forall_impl; [|exact HL]. intros; now apply shape2_softmax. }
  assert (HPne : P <> []) by (unfold P; destruct L; simpl; congruence).
  destruct (mapM_clf net clf clf_runs views g) as [g' Erun].
  exists g'. unfold guess_label, bind. rewrite Erun. fold L.
  rewrite (tf_concat_shapes HLne HL). unfold lift at 1, tf_softmax at 1.
  rewrite concat_map. change (map (map softmax_row) L) with P.
  replace (length views) with (length P) by (unfold P, L; now rewrite !length_map).
  rewrite (tf_reshape3_concat HPne Hc HP).
  unfold lift. rewrite sharpen_rows by exact HT. reflexivity.
Qed.

Lemma views_mean_rows (views : list Batch) (B : nat) b :
  views <> [] -> (0 < nclass)%nat ->
  Forall (fun v => shape2 B nclass (net v)) views -> (b < B)%nat ->
  shape2 B nclass (views_mean net views)
  /\ Forall (fun x => 0 < x) (nth b (views_mean net views) [])
  /\ sum_list (nth b (views_mean net views) []) = 1.
Proof.
  intros Hne Hc Hshape Hb. unfold views_mean.
  set (L := map net views).
  assert (HL : Forall (shape2 B nclass) L) by (now apply Forall_map).
  assert (HLne : L <> []) by (unfold L; destruct views; simpl; congruence).
  set (P := map tf_softmax L).
  assert (HP : Forall (shape2 B nclass) P).
  { apply Forall_map. eapply Forall_impl; [|exact HL]. intros; now apply shape2_softmax. }
  assert (HPne : P <> []) by (unfold P; destruct L; simpl; congruence).
  assert (Hsh : shape2 B nclass (tf_reduce_mean0 P)).
  { destruct (tf_reduce_mean0_entry HP HPne Hb Hc) as [Hs _]. exact Hs. }
  split; [exact Hsh|]. split.
  - pose proof (shape2_row Hsh Hb) as El.
    apply Forall_forall. intros x Hx. apply (In_nth _ _ 0) in Hx.
    destruct Hx as (c & Hcc & <-). rewrite El in Hcc.
    change (0 < entry (tf_reduce_mean0 P) b c).
    destruct (tf_reduce_mean0_entry HP HPne Hb Hcc) as [_ ->].
    apply Rdiv_lt_0_compat.
    + apply sum_list_pos; [destruct P; simpl; congruence|].
      apply Forall_map. unfold P. apply Forall_map.
      eapply Forall_impl; [|exact HL]. intros z Hz.
      rewrite (entry_softmax Hz Hb Hcc). now apply (spec_softmax_pos Hz).
    + apply lt_0_INR. destruct P; simpl; [congruence | lia].
  - apply (tf_reduce_mean0_distribution HPne HP Hb).
    unfold P. apply Forall_map. eapply Forall_impl; [|exact HL].
    intros z Hz. unfold tf_softmax.
    rewrite (nth_indep _ [] (softmax_row [])) by (rewrite length_map; destruct Hz; lia).
    rewrite (map_nth softmax_row). apply softmax_row_distribution.
    pose proof (shape2_row Hz Hb) as E. destruct (nth b z []); simpl in *; [lia | discriminate].
Qed.

(** X1: the averaged prediction is a distribution in every row. *)
Theorem p_model_rows_are_distributions (views : list Batch) (B : nat) (T : R) g :
  T <> 0 -> views <> [] -> (0 < nclass)%nat ->
  Forall (fun v => shape2 B nclass (net v)) views ->
  exists r g',
    guess_label nclass views clf T g = Ok (r, g')
    /\ forall b, (b < B)%nat ->
         Forall (fun x => 0 < x) (nth b (p_model r) [])
         /\ sum_list (nth b (p_model r) []) = 1.
Proof.
  intros HT Hne Hc Hshape.
  destruct (guess_label_value g HT Hne Hc Hshape) as [g' E].
  eexists _, g'. split; [exact E|]. intros b Hb. cbn [p_model].
  now destruct (views_mean_rows Hne Hc Hshape Hb) as (_ & Hp & Hs).
Qed.

(** X2: views with the same logits give that prediction. *)
Theorem identical_views_guess (views : list Batch) (z : tensor2 R) (B : nat) (T : R) g :
  T <> 0 -> views <> [] -> (0 < nclass)%nat ->
  shape2 B nclass z ->
  Forall (fun v => net v = z) views ->
  exists r g',
    guess_label nclass views clf T g = Ok (r, g')
    /\ p_model r = tf_softmax z
    /\ sharpen (tf_softmax z) T = Ok (p_target r).
Proof.
  intros HT Hne Hc Hz Hsame.
  assert (Hshape : Forall (fun v => shape2 B nclass (net v)) views).
  { eapply Forall_impl; [|exact Hsame]. now intros v ->. }
  destruct (guess_label_value g HT Hne Hc Hshape) as [g' E].
  assert (Em : views_mean net views = tf_softmax z).
  { assert (HP : Forall (shape2 B nclass) (map tf_softmax (map net views))).
    { apply Forall_map, Forall_map. eapply Forall_impl; [|exact Hshape].
      intros; now apply shape2_softmax. }
    assert (HPne : map tf_softmax (map net views) <> [])
      by (destruct views; simpl; congruence).
    destruct B as [|B'].
    { destruct Hz as [Hz0 _]. destruct z; [|discriminate].
      destruct views as [|v views']; [congruence|].
      unfold views_mean. simpl. inversion Hsame as [|? ? Ev _]; subst.
      rewrite Ev. simpl.
      assert (Hall : Forall (shape2 0 nclass) (map tf_softmax (map net views'))).
      { now inversion HP. }
      destruct (fold_add2 (g := []) (conj eq_refl (Forall_nil _)) Hall) as [[Hl _] _].
      destruct (fold_left tf_add2 _ _); [reflexivity | discriminate]. }
    apply (tensor2_ext (b := Datatypes.S B') (c := nclass)).
    - now destruct (views_mean_rows Hne Hc Hshape (Nat.lt_0_succ B')).
    - now apply shape2_softmax.
    - intros i j Hi Hj. unfold views_mean.
      destruct (tf_reduce_mean0_entry HP HPne Hi Hj) as [_ ->].
      rewrite !map_map, length_map.
      assert (Ec : map (fun x => entry (tf_softmax (net x)) i j) views
                   = map (fun _ => entry (tf_softmax z) i j) views).
      { apply map_ext_in. intros v Hv. rewrite Forall_forall in Hsame.
        now rewrite (Hsame v Hv). }
      rewrite Ec, sum_list_const. field.
      apply not_0_INR. destruct views; simpl; [congruence | lia]. }
  eexists _, g'. split; [exact E|]. cbn [p_model p_target]. split; [exact Em|].
  rewrite sharpen_rows by exact HT. now rewrite Em.
Qed.

(** X3: sharpening keeps the ranking of the classes. *)
Theorem sharpening_keeps_ranking (views : list Batch) (B : nat) (T : R) g :
  0 < T -> views <> [] -> (0 < nclass)%nat ->
  Forall (fun v => shape2 B nclass (net v)) views ->
  exists r g',
    guess_label nclass views clf T g = Ok (r, g')
    /\ forall b c c', (b < B)%nat -> (c < nclass)%nat -> (c' < nclass)%nat ->
         entry (p_model r) b c <= entry (p_model r) b c' ->
         entry (p_target r) b c <= entry (p_target r) b c'.
Proof.
  intros HT Hne Hc Hshape.
  destruct (guess_label_value g (Rgt_not_eq _ _ HT) Hne Hc Hshape) as [g' E].
  eexists _, g'. split; [exact E|]. cbn [p_model p_target].
  intros b c c' Hb Hcc Hcc' Hle.
  destruct (views_mean_rows Hne Hc Hshape Hb) as (Hsh & Hpos & _).
  pose proof (shape2_row Hsh Hb) as El.
  assert (Hrow : nth b (views_mean net views) [] <> []).
  { destruct (nth b (views_mean net views) []); simpl in *; [lia | discriminate]. }
  unfold entry in *.
  rewrite (nth_indep _ [] (sharpen_row (1 / T) []))
    by (rewrite length_map; destruct Hsh; lia).
  rewrite (map_nth (sharpen_row (1 / T))).
  destruct (sharpen_row_spec (1 / T) Hrow Hpos) as (_ & Ent & _).
  rewrite !Ent by lia.
  apply Rmult_le_compat_r.
  - left. apply Rinv_0_lt_compat. rewrite El.
    apply sum_list_pos; [destruct nclass; [lia | discriminate]|].
    apply Forall_map, Forall_forall. intros; unfold Rpower; apply exp_pos.
  - apply Rle_Rpower_l.
    + left. apply Rdiv_lt_0_compat; lra.
    + split; [|exact Hle]. rewrite Forall_forall in Hpos. apply Hpos, nth_In. lia.
Qed.

(** X4: a temperature at most 1 does not lower the largest probability of
    an example, a temperature at least 1 does not raise it. *)
Theorem sharpening_and_the_top_class (views : list Batch) (B : nat) (T : R) g :
  0 < T -> views <> [] -> (0 < nclass)%nat ->
  Forall (fun v => shape2 B nclass (net v)) views ->
  exists r g',
    guess_label nclass views clf T g = Ok (r, g')
    /\ forall b c, (b < B)%nat -> (c < nclass)%nat ->
         (forall c', (c' < nclass)%nat ->
                     entry (p_model r) b c' <= entry (p_model r) b c) ->
         (T <= 1 -> entry (p_model r) b c <= entry (p_target r) b c)
         /\ (1 <= T -> entry (p_target r) b c <= entry (p_model r) b c).
Proof.
  intros HT Hne Hc Hshape.
  destruct (guess_label_value g (Rgt_not_eq _ _ HT) Hne Hc Hshape) as [g' E].
  eexists _, g'. split; [exact E|]. cbn [p_model p_target].
  intros b c Hb Hcc Hmax.
  destruct (views_mean_rows Hne Hc Hshape Hb) as (Hsh & Hpos & Hsum).
  pose proof (shape2_row Hsh Hb) as El.
  set (row := nth b (views_mean net views) []) in *.
  assert (Ein : In (nth c row 0) row) by (apply nth_In; lia).
  assert (Hall : Forall (fun x => x <= nth c row 0) row).
  { apply Forall_forall. intros x Hx. apply (In_nth _ _ 0) in Hx.
    destruct Hx as (c' & Hc' & <-). apply Hmax. lia. }
  assert (Et : entry (map (sharpen_row (1 / T)) (views_mean net views)) b c
               = Rpower (nth c row 0) (1 / T)
                 / sum_list (map (fun y => Rpower y (1 / T)) row)).
  { unfold entry.
    rewrite (nth_indep _ [] (sharpen_row (1 / T) []))
      by (rewrite length_map; destruct Hsh; lia).
    rewrite (map_nth (sharpen_row (1 / T))). fold row.
    rewrite (sharpen_row_positive (1 / T) Hpos).
    rewrite (nth_indep _ 0 ((fun x => Rpower x (1 / T)
               / sum_list (map (fun y => Rpower y (1 / T)) row)) 0))
      by (rewrite length_map; lia).
    now rewrite (map_nth (fun x => Rpower x (1 / T)
               / sum_list (map (fun y => Rpower y (1 / T)) row))). }
  rewrite Et. change (entry (views_mean net views) b c) with (nth c row 0).
  destruct (sharpen_row_top (1 / T) Hpos Hsum Ein Hall) as [H1 H2].
  split; intros HT1.
  - apply H1. apply Rmult_le_reg_r with T; [exact HT|].
    unfold Rdiv. rewrite Rmult_assoc, Rinv_l by lra. lra.
  - apply H2. apply Rmult_le_reg_r with T; [exact HT|].
    unfold Rdiv. rewrite Rmult_assoc, Rinv_l by lra. lra.
Qed.
End GuessFacts.

(** X5: sharpening with [T1] and then with [T2] is sharpening with
    [T1 * T2]. *)
Theorem sharpen_twice (p : tensor2 R) (T1 T2 : R) :
  T1 <> 0 -> T2 <> 0 ->
  Forall (Forall (fun x => 0 < x)) p ->
  exists q q',
    sharpen p T1 = Ok q /\ sharpen q T2 = Ok q' /\ sharpen p (T1 * T2) = Ok q'.
Proof.
  intros H1 H2 Hpos.
  assert (H12 : T1 * T2 <> 0) by (now apply Rmult_integral_contrapositive).
  exists (map (sharpen_row (1 / T1)) p), (map (sharpen_row (1 / (T1 * T2))) p).
  rewrite !sharpen_rows by assumption. repeat split. f_equal.
  rewrite map_map. apply map_ext_in. intros row Hrow.
  rewrite Forall_forall in Hpos. rewrite sharpen_row_compose by (now apply Hpos).
  f_equal. field. split; assumption.
Qed.

(** ** The views of the unlabeled examples *)

Lemma nth_heads {X} (rows : list (list X)) (i : nat) d :
  Forall (fun r => r <> []) rows ->
  nth i (flat_map (firstn 1) rows) d = nth 0 (nth i rows []) d.
Proof.
  intros Hr. revert i. induction Hr as [|r rows Hne _ IH]; intros i.
  - destruct i; reflexivity.
  - destruct r as [|x r]; [congruence|]. destruct i; simpl; [reflexivity | apply IH].
Qed.

Lemma nth_transpose {X} (n : nat) (rows : list (list X)) (v i : nat) d :
  Forall (fun r => length r = n) rows -> (v < n)%nat ->
  nth i (nth v (transpose n rows) []) d = nth v (nth i rows []) d.
Proof.
  revert rows v. induction n as [|n IH]; intros rows v Hr Hv; [lia|].
  destruct v as [|v]; simpl.
  - apply nth_heads. eapply Forall_impl; [|exact Hr].
    intros r E ->. discriminate.
  - rewrite IH.
    + change (@nil X) with (tl (@nil X)) at 1. rewrite (map_nth (@tl X)).
      destruct (nth i rows []); destruct v; reflexivity.
    + apply Forall_map. eapply Forall_impl; [|exact Hr].
      intros r E. destruct r; simpl in *; [discriminate | lia].
    + lia.
Qed.

(** X6: lines 93-94 turn the [batch] rows of [nu] views into [nu] views
    of [batch] images: image [i] of view [v] is view [v] of example [i]. *)
Theorem views_regrouped {X} (n b : nat) (y_in : list (list X)) (d : X) :
  (0 < n)%nat -> shape2 b n y_in ->
  exists ys,
    tf_split (concat (transpose n y_in)) n = Ok ys
    /\ shape2 n b ys
    /\ forall v i, (v < n)%nat -> (i < b)%nat ->
         nth i (nth v ys []) d = nth v (nth i y_in []) d.
Proof.
  intros Hn Hy. destruct (tf_split_views Hn Hy) as [Es Hs].
  exists (transpose n y_in). repeat split; try assumption; try apply Hs.
  intros v i Hv _. apply nth_transpose; [apply Hy | exact Hv].
Qed.

Lemma views_regrouped_witness :
  exists ys,
    tf_split (concat (transpose 2 [[3; 4]; [5; 6]; [7; 8]]%nat)) 2 = Ok ys
    /\ shape2 2 3 ys
    /\ forall v i, (v < 2)%nat -> (i < 3)%nat ->
         nth i (nth v ys []) 0%nat = nth v (nth i [[3; 4]; [5; 6]; [7; 8]]%nat []) 0%nat.
Proof.
  apply (@views_regrouped nat 2 3 [[3; 4]; [5; 6]; [7; 8]]%nat 0%nat); [lia|].
  split; [reflexivity | repeat constructor].
Defined.

(** ** The matching weight *)

Lemma clip_range x : 0 <= tf_clip_by_value x 0 1 <= 1.
Proof.
  unfold tf_clip_by_value, Rmin, Rmax.
  repeat match goal with |- context [Rle_dec ?a ?b] => destruct (Rle_dec a b) end; lra.
Qed.

Lemma clip_monotone x y : x <= y -> tf_clip_by_value x 0 1 <= tf_clip_by_value y 0 1.
Proof.
  intros Hxy. unfold tf_clip_by_value.
  apply Rle_min_compat_r, Rle_max_compat_r, Hxy.
Qed.

(** X7: with a non-negative weight and a positive warm-up, the weight of
    the matching loss lies between 0 and [w_match] and never decreases as
    the step grows. *)
Theorem ramped_w_match_bounded_monotone (w : R) (s s' k : Z) :
  0 <= w -> (0 < k)%Z -> (s <= s')%Z ->
  0 <= ramped_w_match w s k <= w
  /\ ramped_w_match w s k <= ramped_w_match w s' k.
Proof.
  intros Hw Hk Hs. unfold ramped_w_match. rewrite shiftl_10.
  assert (Hd : 0 < IZR (k * 1024)) by (apply IZR_lt; lia).
  split.
  - pose proof (clip_range (IZR s / IZR (k * 1024))) as [H0 H1]. split.
    + now apply Rmult_le_pos.
    + rewrite <- (Rmult_1_r w) at 2. now apply Rmult_le_compat_l.
  - apply Rmult_le_compat_l; [exact Hw|]. apply clip_monotone.
    unfold Rdiv. apply Rmult_le_compat_r.
    + left. now apply Rinv_0_lt_compat.
    + now apply IZR_le.
Qed.

Lemma ramped_w_match_bounded_monotone_witness :
  0 <= ramped_w_match 100 5 1024 <= 100
  /\ ramped_w_match 100 5 1024 <= ramped_w_match 100 7 1024.
Proof. apply ramped_w_match_bounded_monotone; [lra | lia | lia]. Defined.

(** X8: a negative warm-up duration switches the matching loss off for
    good: the weight is 0 at every step. *)
Theorem negative_warmup_disables_matching (w : R) (s k : Z) :
  (k < 0)%Z -> (0 <= s)%Z -> ramped_w_match w s k = 0.
Proof.
  intros Hk Hs. unfold ramped_w_match. rewrite shiftl_10, clip_below; [lra|].
  assert (Hd : IZR (k * 1024) < 0) by (apply IZR_lt; lia).
  assert (Hn : 0 <= IZR s) by (now apply IZR_le).
  unfold Rdiv. apply Rinv_lt_0_compat in Hd.
  nra.
Qed.

Lemma negative_warmup_disables_matching_witness : ramped_w_match 100 4096 (-1) = 0.
Proof. apply negative_warmup_disables_matching; lia. Defined.

(** ** One-hot labels *)

Lemma sum_one_hot (depth start : nat) (l : Z) :
  sum_list (map (fun c => if (Z.of_nat c =? l)%Z then 1 else 0) (seq start depth))
  = if ((Z.of_nat start <=? l)%Z && (l <? Z.of_nat (start + depth))%Z)%bool
    then 1 else 0.
Proof.
  revert start. induction depth as [|depth IH]; intros start.
  - simpl. destruct (Z.leb_spec (Z.of_nat start) l), (Z.ltb_spec l (Z.of_nat (start + 0)));
      simpl; try reflexivity; lia.
  - cbn [seq map].
    change (sum_list (?a :: ?x)) with (a + sum_list x).
    rewrite IH.
    destruct (Z.eqb_spec (Z.of_nat start) l),
             (Z.leb_spec (Z.of_nat (Datatypes.S start)) l),
             (Z.ltb_spec l (Z.of_nat (Datatypes.S start + depth))),
             (Z.leb_spec (Z.of_nat start) l),
             (Z.ltb_spec l (Z.of_nat (start + Datatypes.S depth)));
      simpl; try lra; lia.
Qed.

(** X9: line 97 gives a label inside [0, nclass) the indicator row of
    its class, a probability vector, and a label outside that range a row
    of zeros, without an error. *)
Theorem one_hot_rows (nclass : nat) (l : Z) :
  length (one_hot_row (S := R) nclass l) = nclass
  /\ (forall c, (c < nclass)%nat ->
        nth c (one_hot_row nclass l) 0 = if (Z.of_nat c =? l)%Z then 1 else 0)
  /\ ((0 <= l < Z.of_nat nclass)%Z -> prob_vector (one_hot_row nclass l))
  /\ (~ (0 <= l < Z.of_nat nclass)%Z ->
        one_hot_row nclass l = repeat 0 nclass).
Proof.
  unfold one_hot_row. simpl. repeat split.
  - now rewrite length_map, length_seq.
  - intros c Hc.
    rewrite (nth_indep _ 0 ((fun c => if (Z.of_nat c =? l)%Z then 1 else 0) 0%nat))
      by (now rewrite length_map, length_seq).
    rewrite (map_nth (fun c => if (Z.of_nat c =? l)%Z then 1 else 0)).
    now rewrite seq_nth.
  - apply Forall_map, Forall_forall. intros c _. destruct (Z.of_nat c =? l)%Z; lra.
  - rewrite sum_one_hot. simpl.
    destruct (Z.leb_spec 0 l), (Z.ltb_spec l (Z.of_nat nclass)); simpl; try reflexivity; lia.
  - intros Hout.
    assert (E : forall c, In c (seq 0 nclass) ->
                (if (Z.of_nat c =? l)%Z then 1 else 0) = (fun _ => 0) c).
    { intros c Hc. apply in_seq in Hc. destruct (Z.eqb_spec (Z.of_nat c) l); [lia | reflexivity]. }
    rewrite (map_ext_in _ _ _ E). clear E.
    generalize 0%nat. induction nclass as [|n IH]; intros st; simpl; [reflexivity|].
    f_equal. apply IH. lia.
Qed.

Lemma one_hot_rows_witness :
  prob_vector (one_hot_row 3 1) /\ one_hot_row (S := R) 3 5 = repeat 0 3.
Proof.
  destruct (one_hot_rows 3 1) as (_ & _ & A & _).
  destruct (one_hot_rows 3 5) as (_ & _ & _ & B).
  split; [apply A; lia | apply B; lia].
Defined.

(** ** Bounds on the losses *)

Lemma Forall_map2 {A B C} (PA : A -> Prop) (PB : B -> Prop) (P : C -> Prop)
    (f : A -> B -> C) (a : list A) (b : list B) :
  (forall x y, PA x -> PB y -> P (f x y)) ->
  Forall PA a -> Forall PB b -> Forall P (map2 f a b).
Proof.
  intros Hf Ha. revert b. induction Ha as [|x a Hx _ IH]; intros b Hb.
  - constructor.
  - destruct Hb as [|y b Hy Hb]; [constructor|].
    unfold map2. simpl. constructor; [now apply Hf | now apply IH].
Qed.

Lemma mean_bounds (l : list R) (lo hi : R) :
  l <> [] -> Forall (fun x => lo <= x <= hi) l ->
  lo <= tf_reduce_mean1 l <= hi.
Proof.
  intros Hne Hl. unfold tf_reduce_mean1, of_nat. simpl.
  assert (Hs : lo * INR (length l) <= sum_list l <= hi * INR (length l)).
  { clear Hne. induction Hl as [|x l Hx _ IH].
    - simpl. unfold s_zero. simpl. lra.
    - change (sum_list (x :: l)) with (x + sum_list l).
      change (length (x :: l)) with (Datatypes.S (length l)). rewrite S_INR. lra. }
  assert (Hn : 0 < INR (length l)).
  { apply lt_0_INR. destruct l; simpl; [congruence | lia]. }
  split.
  - apply Rmult_le_reg_r with (INR (length l)); [exact Hn|].
    unfold Rdiv. rewrite Rmult_assoc, Rinv_l by lra. lra.
  - apply Rmult_le_reg_r with (INR (length l)); [exact Hn|].
    unfold Rdiv. rewrite Rmult_assoc, Rinv_l by lra. lra.
Qed.

Lemma le_sum_list (l : list R) x :
  Forall (fun y => 0 <= y) l -> In x l -> x <= sum_list l.
Proof.
  intros Hl. induction Hl as [|y l Hy Hl IH]; intros Hin; [contradiction|].
  change (sum_list (y :: l)) with (y + sum_list l).
  pose proof (sum_list_nonneg Hl). destruct Hin as [->|Hin]; [lra|].
  specialize (IH Hin). lra.
Qed.

Lemma softmax_row_range (z : tensor1 R) :
  Forall (fun q => 0 <= q <= 1) (softmax_row z).
Proof.
  destruct z as [|x z]; [constructor|].
  destruct (@softmax_row_distribution (x :: z)) as [Hp Hs]; [discriminate|].
  assert (Hn : Forall (fun y => 0 <= y) (softmax_row (x :: z))).
  { eapply Forall_impl; [|exact Hp]. simpl. intros; lra. }
  apply Forall_forall. intros q Hq. split.
  - rewrite Forall_forall in Hn. now apply Hn.
  - rewrite <- Hs. now apply le_sum_list.
Qed.

Lemma log_softmax_row_nonpos (z : tensor1 R) :
  Forall (fun x => x <= 0) (log_softmax_row z).
Proof.
  unfold log_softmax_row. apply Forall_map, Forall_forall. intros x Hx. simpl.
  assert (Hle : exp x <= sum_list (map exp z)).
  { apply le_sum_list.
    - apply Forall_map, Forall_forall. intros y _. left. apply exp_pos.
    - now apply in_map. }
  assert (Hl : ln (exp x) <= ln (sum_list (map exp z))).
  { destruct Hle as [Hlt|E]; [left; apply ln_increasing; [apply exp_pos | exact Hlt]|].
    rewrite <- E. lra. }
  rewrite ln_exp in Hl. lra.
Qed.

Lemma shape2_nonempty {X} b c (t : list (list X)) :
  (0 < b)%nat -> (0 < c)%nat -> shape2 b c t -> concat t <> [].
Proof.
  intros Hb Hc [Hl Hr] E. apply (f_equal (@length X)) in E.
  rewrite (length_concat_uniform Hr), Hl in E. simpl in E. nia.
Qed.

Lemma shape2_map2 {X Y Z} (f : X -> Y -> Z) b c (x : list (list X)) (y : list (list Y)) :
  shape2 b c x -> shape2 b c y -> shape2 b c (map2 (map2 f) x y).
Proof.
  intros [Hx Hxr] [Hy Hyr]. split.
  - rewrite length_map2; congruence.
  - apply Forall_map2 with (PA := fun r => length r = c) (PB := fun r => length r = c);
      try assumption.
    intros r r' E E'. rewrite length_map2; congruence.
Qed.

(** X10: on labels and logits of matching shapes, the labeled loss is not
    negative when no label weight is, and the matching loss lies between
    0 and 1 when the guessed labels lie between 0 and 1. *)
Theorem losses_bounded {Img : Type} (m : mixed (S := R) Img) (s : streams (S := R))
    (b b' c : nat) :
  (0 < b)%nat -> (0 < b')%nat -> (0 < c)%nat ->
  shape2 b c (labels_x m) -> shape2 b c (logits_x s) ->
  shape2 b' c (labels_y m) -> shape2 b' c (logits_y s) ->
  Forall (Forall (fun l => 0 <= l)) (labels_x m) ->
  Forall (Forall (fun l => 0 <= l <= 1)) (labels_y m) ->
  0 <= loss_xe m s /\ 0 <= loss_l2u m s <= 1.
Proof.
  intros Hb Hb' Hc Hlx Hzx Hly Hzy Hpos Hrange. split.
  - unfold loss_xe, tf_softmax_cross_entropy.
    apply (@mean_bounds _ 0 (sum_list (map2 (fun l z =>
             s_neg (sum_list (map2 s_mul l (log_softmax_row z))))
             (labels_x m) (logits_x s)))).
    + destruct Hlx as [El _], Hzx as [Ez _].
      destruct (labels_x m), (logits_x s); simpl in *; try lia. discriminate.
    + assert (Hall : Forall (fun v => 0 <= v)
                (map2 (fun l z => s_neg (sum_list (map2 s_mul l (log_softmax_row z))))
                      (labels_x m) (logits_x s))).
      { apply Forall_map2 with (PA := Forall (fun l => 0 <= l)) (PB := fun _ => True).
        - intros l z Hl _. unfold s_neg, s_zero. simpl.
          assert (Hs : sum_list (map2 Rmult l (log_softmax_row z)) <= 0).
          { assert (Hn : Forall (fun v => 0 <= v)
                      (map Ropp (map2 Rmult l (log_softmax_row z)))).
            { apply Forall_map.
              apply Forall_map2 with (PA := fun l => 0 <= l) (PB := fun x => x <= 0).
              - intros x y Hx Hy. nra.
              - exact Hl.
              - apply log_softmax_row_nonpos. }
            apply sum_list_nonneg in Hn.
            assert (E : forall q, sum_list (map Ropp q) = - sum_list q).
            { induction q as [|a q IH]; simpl; [unfold s_zero; simpl; lra|].
              rewrite IH. lra. }
            rewrite E in Hn. lra. }
          lra.
        - exact Hpos.
        - apply Forall_forall. intros; exact I. }
      apply Forall_forall. intros v Hv. split.
      * rewrite Forall_forall in Hall. now apply Hall.
      * apply le_sum_list; assumption.
  - unfold loss_l2u, tf_reduce_mean2. apply mean_bounds.
    + assert (Hsub : shape2 b' c (tf_sub (labels_y m) (tf_softmax (logits_y s)))).
      { unfold tf_sub. apply shape2_map2; [assumption | now apply shape2_softmax]. }
      apply (@shape2_nonempty _ b' c); try assumption.
      unfold tf_square. destruct Hsub as [A B]. split; [now rewrite length_map|].
      apply Forall_map. eapply Forall_impl; [|exact B].
      intros r E. simpl. now rewrite length_map.
    + apply Forall_concat. unfold tf_square, tf_sub. apply Forall_map.
      apply Forall_map2 with (PA := Forall (fun l => 0 <= l <= 1))
                             (PB := Forall (fun q => 0 <= q <= 1)).
      * intros r r' Hr Hr'. apply Forall_map.
        apply Forall_map2 with (PA := fun l => 0 <= l <= 1) (PB := fun q => 0 <= q <= 1);
          try assumption.
        intros x y Hx Hy. simpl.
        assert (Hd : -1 <= x - y <= 1) by lra.
        generalize dependent (x - y). intros d Hd. split; nra.
      * exact Hrange.
      * unfold tf_softmax. apply Forall_map, Forall_forall. intros z _.
        apply softmax_row_range.
Qed.

Lemma losses_bounded_witness :
  0 <= loss_xe (Img := nat)
         {| lx := []; labels_x := [[1; 0]]; labels_y := [[1 / 2; 1 / 2]]; batches := [] |}
         {| logits_x := [[0; 0]]; logits_y := [[0; 0]]; bn_ops := [] |}
  /\ 0 <= loss_l2u (Img := nat)
         {| lx := []; labels_x := [[1; 0]]; labels_y := [[1 / 2; 1 / 2]]; batches := [] |}
         {| logits_x := [[0; 0]]; logits_y := [[0; 0]]; bn_ops := [] |} <= 1.
Proof.
  apply (@losses_bounded nat _ _ 1%nat 1%nat 2%nat); try lia;
    try (split; [reflexivity | repeat constructor]);
    repeat constructor; simpl; lra.
Defined.

(** ** Splitting *)

Lemma length_chunks {A} (n k : nat) (l : list A) : length (chunks n k l) = n.
Proof.
  revert l. induction n as [|n IH]; intros l; simpl; [reflexivity | now rewrite IH].
Qed.

Lemma tf_split_length {X} (y : list X) (n : nat) ys :
  tf_split y n = Ok ys -> length ys = n /\ (0 < n)%nat.
Proof.
  unfold tf_split. destruct (Nat.eqb_spec n 0) as [|Hn]; [discriminate|].
  destruct (_ =? 0)%nat; [|discriminate].
  intros [= <-]. split; [apply length_chunks | lia].
Qed.

Lemma after_passes_add (q a b : nat) g :
  after_passes q (a + b) g = after_passes q b (after_passes q a g).
Proof.
  revert g. induction a as [|a IH]; intros g; simpl; [reflexivity | apply IH].
Qed.



Section ModelExtras.
Context {S : Type} `{Scalar S}.
Variable Img : Type.
Variable nclass : nat.
Variable self_classifier : kwargs_t -> bool -> images Img -> tensor2 S.
Variable n_update_ops : nat.
Variable MixMode : string -> result (augmenter (S := S) Img).
Variable model_vars : option string -> list string.
Variable p_data_has_update : bool.

Local Abbreviation classifier' := (classifier self_classifier n_update_ops).
Local Abbreviation model_with' :=
  (model_with nclass self_classifier n_update_ops MixMode model_vars p_data_has_update).
Local Abbreviation model' :=
  (model nclass self_classifier n_update_ops MixMode model_vars p_data_has_update).
Local Abbreviation stages' := (stages nclass self_classifier n_update_ops MixMode).

(** X11: a keyword argument named [self], [y], [classifier], [T] or
    [training] among the extra arguments of [model] collides with an
    argument the step passes itself: no step is built, and when the
    placeholders, the mixing mode and the views are in order the error
    is a TypeError. *)
Theorem reserved_keywords_rejected cfg (feed : feeds Img) g0 (k : string) :
  In k ["self"; "y"; "classifier"; "T"; "training"]%string ->
  has_key k (kwargs cfg) = true ->
  (exists e, model' cfg feed g0 = Err e)
  /\ (forall augment b,
        (0 <= batch cfg)%Z -> (1 <= nu cfg)%Z ->
        MixMode (mixmode cfg) = Ok augment ->
        shape2 b (Z.to_nat (nu cfg)) (y_in feed) ->
        model' cfg feed g0 = Err TypeError).
Proof.
  intros Hin Hk.
  assert (Hcase : existsb (fun k => has_key k (kwargs cfg))
                          ["self"; "y"; "classifier"; "T"]%string = true
                  \/ has_key "training" (kwargs cfg) = true).
  { simpl in Hin. simpl.
    destruct Hin as [<-|[<-|[<-|[<-|[<-|[]]]]]]; rewrite ?Hk, ?orb_true_r; auto. }
  assert (Hguess : forall ys, ys <> [] ->
            call_with_kwargs ["self"; "y"; "classifier"; "T"]%string (kwargs cfg)
              (guess_label nclass ys (classifier' (kwargs cfg)) (1 / 2)) g0
            = Err TypeError).
  { intros ys Hne. unfold call_with_kwargs.
    destruct (existsb _ _) eqn:E; [reflexivity|].
    destruct Hcase as [E'|Ht]; [simpl in E, E'; congruence|].
    now apply guess_label_training_kw. }
  split.
  - unfold model, model_with. unfold bind at 1. unfold lift at 1.
    destruct (tf_placeholder [batch cfg]); [|eauto].
    unfold bind at 1. unfold lift at 1.
    destruct (tf_placeholder [batch cfg; nu cfg]); [|eauto].
    unfold bind at 1. unfold lift at 1.
    destruct (MixMode (mixmode cfg)); [|eauto].
    unfold bind at 1. unfold lift at 1.
    destruct (tf_split _ _) as [ys|] eqn:Es; [|eauto].
    apply tf_split_length in Es. destruct Es as [El Hn].
    unfold bind at 1. rewrite Hguess; [eauto|].
    destruct ys; simpl in *; [lia | discriminate].
  - intros augment b Hb Hn HM Hy.
    assert (Hn' : (0 < Z.to_nat (nu cfg))%nat) by lia.
    destruct (tf_split_views Hn' Hy) as [Es [El _]].
    unfold model, model_with, tf_placeholder. simpl forallb.
    apply Z.leb_le in Hb. assert (Hn0 : (0 <=? nu cfg)%Z = true) by (apply Z.leb_le; lia).
    rewrite Hb, Hn0. simpl andb.
    unfold bind at 1. unfold lift at 1. unfold bind at 1. unfold lift at 1.
    unfold bind at 1. unfold lift at 1. rewrite HM.
    unfold bind at 1. unfold lift at 1. rewrite Es.
    unfold bind at 1. rewrite Hguess; [reflexivity|].
    destruct (transpose _ _); simpl in *; [lia | discriminate].
Qed.

(** X12: a negative batch size is refused by the first placeholder, with
    ValueError, before the mixing mode, the keyword arguments or the
    guesser are looked at. *)
Theorem negative_batch_rejected G cfg (feed : feeds Img) g0 :
  (batch cfg < 0)%Z -> model_with' G cfg feed g0 = Err ValueError.
Proof.
  intros Hb. unfold model_with, bind, lift, tf_placeholder. simpl.
  destruct (Z.leb_spec 0 (batch cfg)); [lia | reflexivity].
Qed.

(** X13: a step built with a mixing function that keeps the number of
    batches runs the classifier in training mode [2 * nu + 1] times, [nu]
    for the guess and [nu + 1] for the mixed batches: that many groups of
    update operations are appended to the collection, and identities stay
    below the next fresh one. *)
Theorem step_registers_update_ops cfg (feed : feeds Img) g0 out g1 augment :
  MixMode (mixmode cfg) = Ok augment ->
  (forall xs ls bs, length (fst (augment xs ls bs)) = length xs) ->
  model' cfg feed g0 = Ok (out, g1) ->
  let k := (2 * Z.to_nat (nu cfg) + 1)%nat in
  update_ops g1 = update_ops g0 ++ seq (next_op g0) (k * n_update_ops)
  /\ next_op g1 = (next_op g0 + k * n_update_ops)%nat
  /\ (graph_wf g0 -> graph_wf g1).
Proof.
  intros HM Haug Hrun k. unfold model in Hrun.
  apply model_with_inv in Hrun.
  destruct Hrun as (augment' & ys & guess & ga & m & s & Hst & _).
  destruct Hst as (HM' & Hs & _ & HG & Hm & Hp).
  rewrite HM in HM'. injection HM' as <-.
  apply tf_split_length in Hs. destruct Hs as [El Hn].
  apply guess_label_graph in HG.
  apply mix_batches in Hm. rewrite Haug in Hm. simpl in Hm.
  apply passes_inv in Hp. destruct Hp as (b0 & rest & Eb & _ & _ & Eg & _).
  rewrite Eb in Hm. simpl in Hm.
  assert (E : g1 = after_passes n_update_ops k g0).
  { unfold k. rewrite Eg, HG.
    replace (2 * Z.to_nat (nu cfg) + 1)%nat
      with (length ys + (1 + length rest))%nat by (unfold images in *; lia).
    now rewrite !after_passes_add. }
  rewrite E. destruct (after_passes_ops n_update_ops k g0) as [E1 E2].
  repeat split; try assumption. apply after_passes_wf.
Qed.
End ModelExtras.

Section FirstStep.
Variable Img : Type.
Variable nclass : nat.
Variable self_classifier : kwargs_t -> bool -> images Img -> tensor2 R.
Variable n_update_ops : nat.
Variable MixMode : string -> result (augmenter (S := R) Img).
Variable model_vars : option string -> list string.
Variable p_data_has_update : bool.

End FirstStep.

(** ** The distribution summaries *)

Lemma map2_map_map2 {A B C D E} (f : A -> D -> E) (g : C -> D) (h : B -> A -> C)
    (a : list A) (b : list B) :
  map2 f a (map g (map2 h b a)) = map2 (fun x y => f x (g (h y x))) a b.
Proof.
  revert b. induction a as [|x a IH]; intros b; [now destruct b|].
  destruct b as [|y b]; [reflexivity|].
  unfold map2 in *. simpl. f_equal. apply IH.
Qed.

Lemma kl_equal_lengths (p q : tensor1 R) :
  length p = length q ->
  kl p q = Ok (- sum_list (map2 (fun pi qi => pi * ln (qi / pi))
                                (normalize p) (normalize q))).
Proof.
  intros E. unfold kl, broadcast2. cbv zeta.
  change (map (fun x => s_div x (sum_list p)) p) with (normalize p).
  change (map (fun x => s_div x (sum_list q)) q) with (normalize q).
  assert (E1 : length (normalize q) = length (normalize p))
    by (unfold normalize; rewrite !length_map; congruence).
  rewrite E1, Nat.eqb_refl.
  rewrite length_map, length_map2, E1, Nat.eqb_refl by exact E1.
  rewrite map2_map_map2. f_equal. unfold s_neg, s_zero. simpl. lra.
Qed.

Lemma normalize_distribution (p : tensor1 R) :
  p <> [] -> Forall (fun x => 0 < x) p ->
  Forall (fun x => 0 < x) (normalize p) /\ sum_list (normalize p) = 1.
Proof.
  intros Hne Hp. pose proof (sum_list_pos Hne Hp) as Hs. unfold normalize. split.
  - apply Forall_map. eapply Forall_impl; [|exact Hp].
    intros x Hx. simpl. now apply Rdiv_lt_0_compat.
  - rewrite sum_list_div. field. lra.
Qed.

Lemma ln_le_minus_1 (t : R) : 0 < t -> ln t <= t - 1.
Proof.
  intros Ht. pose proof (exp_ineq1_le (ln t)) as E. rewrite exp_ln in E by exact Ht. lra.
Qed.

Lemma gibbs (a b : list R) :
  length a = length b ->
  Forall (fun x => 0 < x) a -> Forall (fun x => 0 < x) b ->
  sum_list (map2 (fun x y => x * ln (y / x)) a b) <= sum_list b - sum_list a.
Proof.
  intros E Ha. revert b E. induction Ha as [|x a Hx _ IH]; intros b E Hb.
  - destruct b; [|discriminate]. simpl. unfold s_zero. simpl. lra.
  - destruct Hb as [|y b Hy Hb]; [discriminate|].
    injection E as E. specialize (IH b E Hb).
    change (map2 (fun x y => x * ln (y / x)) (x :: a) (y :: b))
      with (x * ln (y / x) :: map2 (fun x y => x * ln (y / x)) a b).
    change (sum_list (?u :: ?v)) with (u + sum_list v).
    assert (Hq : 0 < y / x) by (now apply Rdiv_lt_0_compat).
    pose proof (ln_le_minus_1 Hq) as Hl.
    assert (Hm : x * ln (y / x) <= x * (y / x - 1))
      by (apply Rmult_le_compat_l; lra).
    replace (x * (y / x - 1)) with (y - x) in Hm by (field; lra).
    lra.
Qed.

(** X16: the divergence written to [metrics/kld] is never negative. *)
Theorem kl_nonnegative (p q : tensor1 R) :
  p <> [] -> length p = length q ->
  Forall (fun x => 0 < x) p -> Forall (fun x => 0 < x) q ->
  exists v, kl p q = Ok v /\ 0 <= v.
Proof.
  intros Hne E Hp Hq. rewrite (kl_equal_lengths _ _ E). eexists. split; [reflexivity|].
  assert (Hqne : q <> []) by (destruct p, q; simpl in *; congruence).
  destruct (normalize_distribution Hne Hp) as [Pp Ps].
  destruct (normalize_distribution Hqne Hq) as [Qp Qs].
  assert (El : length (normalize p) = length (normalize q))
    by (unfold normalize; rewrite !length_map; exact E).
  pose proof (gibbs El Pp Qp) as G. rewrite Ps, Qs in G. lra.
Qed.

Lemma kl_nonnegative_witness : exists v, kl [1; 3] [2; 2] = Ok v /\ 0 <= v.
Proof.
  apply kl_nonnegative; [discriminate | reflexivity | |]; repeat constructor; lra.
Defined.

Lemma sum_list_scale_l (a : R) (l : list R) :
  sum_list (map (Rmult a) l) = a * sum_list l.
Proof.
  induction l as [|x l IH]; simpl; [unfold s_zero; simpl; lra|]. rewrite IH. lra.
Qed.

Lemma normalize_scale (a : R) (p : tensor1 R) :
  a <> 0 -> sum_list p <> 0 -> normalize (map (Rmult a) p) = normalize p.
Proof.
  intros Ha Hs. unfold normalize. rewrite map_map, sum_list_scale_l.
  apply map_ext. intros x. field. split; assumption.
Qed.

(** X17: the divergence does not depend on the scale of either vector. *)
Theorem kl_scale_invariant (a b : R) (p q : tensor1 R) :
  a <> 0 -> b <> 0 -> sum_list p <> 0 -> sum_list q <> 0 ->
  kl (map (Rmult a) p) (map (Rmult b) q) = kl p q.
Proof.
  intros Ha Hb Hp Hq. unfold kl. cbv zeta.
  change (map (fun x => s_div x (sum_list (map (Rmult a) p))) (map (Rmult a) p))
    with (normalize (map (Rmult a) p)).
  change (map (fun x => s_div x (sum_list (map (Rmult b) q))) (map (Rmult b) q))
    with (normalize (map (Rmult b) q)).
  now rewrite !normalize_scale.
Qed.

Lemma kl_scale_invariant_witness :
  kl (map (Rmult 2) [1; 3]) (map (Rmult 5) [2; 2]) = kl [1; 3] [2; 2].
Proof.
  apply kl_scale_invariant; try lra; simpl; unfold s_zero; simpl; lra.
Defined.

Section SummaryFacts.
Context {S : Type} `{Scalar S}.

Lemma map_result_ok {A B} (f : A -> result B) (g : A -> B) (l : list A) :
  (forall x, In x l -> f x = Ok (g x)) -> map_result f l = Ok (map g l).
Proof.
  induction l as [|a l IH]; intros Hf; [reflexivity|].
  simpl. rewrite (Hf a) by (now left). rewrite IH; [reflexivity|].
  intros x Hx. apply Hf. now right.
Qed.

Lemma map_result_err {A B} (f : A -> result B) (e : exn) (l : list A) :
  (forall x, In x l -> f x = Err e \/ exists y, f x = Ok y) ->
  (exists x, In x l /\ f x = Err e) ->
  map_result f l = Err e.
Proof.
  induction l as [|a l IH]; intros Hall (x & Hin & Hx); [contradiction|].
  simpl. destruct (Hall a (or_introl eq_refl)) as [->|[y Hy]]; [reflexivity|].
  rewrite Hy. rewrite IH; [reflexivity | |].
  - intros z Hz. apply Hall. now right.
  - destruct Hin as [<-|Hin]; [congruence | eauto].
Qed.

Lemma tf_index_ok (t : tensor1 S) (i : nat) d :
  (i < length t)%nat -> tf_index t i = Ok (nth i t d).
Proof.
  intros Hi. unfold tf_index. now rewrite (nth_error_nth' t d Hi).
Qed.

Lemma tf_index_err (t : tensor1 S) (i : nat) :
  (length t <= i)%nat -> tf_index t i = Err ValueError.
Proof.
  intros Hi. unfold tf_index. apply nth_error_None in Hi. now rewrite Hi.
Qed.

Lemma kl_runs (p q : tensor1 S) :
  length p = length q -> exists v, kl p q = Ok v.
Proof.
  intros E. unfold kl, broadcast2.
  rewrite !length_map, <- E, Nat.eqb_refl.
  rewrite length_map, length_map2, !length_map, E, Nat.eqb_refl
    by (rewrite !length_map; congruence).
  eauto.
Qed.

Lemma distribution_summary_runs (nclass : nat) (p_data p_model : tensor1 S)
    (p_target : option (tensor1 S)) :
  length p_model = length p_data ->
  (forall t, p_target = Some t -> length t = length p_data) ->
  (nclass <= length p_data)%nat ->
  exists l, distribution_summary nclass p_data p_model p_target = Ok l
            /\ map fst l = summary_tags nclass
                             (match p_target with Some _ => true | None => false end).
Proof.
  intros Em Et Hn. unfold distribution_summary.
  destruct (@kl_runs p_data p_model) as [kld ->]; [congruence|].
  assert (Hkt : exists kt,
            match p_target with
            | Some t => match kl p_data t with
                        | Err e => Err e
                        | Ok k => Ok [("metrics/kld_target"%string, k)]
                        end
            | None => Ok []
            end = Ok kt
            /\ map fst kt = if match p_target with Some _ => true | None => false end
                            then ["metrics/kld_target"%string] else []).
  { destruct p_target as [t|]; [|eauto].
    destruct (@kl_runs p_data t) as [k ->]; [symmetry; now apply Et | eauto]. }
  destruct Hkt as (kt & -> & Ekt).
  rewrite (@map_result_ok _ _ _
             (fun i => (ratio_tag i, s_div (nth i p_model s_zero) (nth i p_data s_zero)))).
  - rewrite (@map_result_ok _ _ _ (fun i => (val_tag i, nth i p_model s_zero))).
    + eexists. split; [reflexivity|].
      unfold summary_tags. rewrite !map_app, !map_map, Ekt. reflexivity.
    + intros i Hi. apply in_seq in Hi.
      now rewrite (@tf_index_ok p_model i s_zero) by lia.
  - intros i Hi. apply in_seq in Hi.
    rewrite (@tf_index_ok p_model i s_zero) by lia.
    now rewrite (@tf_index_ok p_data i s_zero) by lia.
Qed.

(** X19: on vectors of one length [n], the summaries are written when
    [nclass <= n], one divergence (two with a target distribution), then
    one ratio and one value for each class; when [n < nclass] the index
    past the end is refused with ValueError. *)
Theorem distribution_summary_outcome (nclass : nat) (p_data p_model : tensor1 S)
    (p_target : option (tensor1 S)) :
  length p_model = length p_data ->
  (forall t, p_target = Some t -> length t = length p_data) ->
  ((nclass <= length p_data)%nat ->
   exists l, distribution_summary nclass p_data p_model p_target = Ok l
             /\ map fst l = summary_tags nclass
                              (match p_target with Some _ => true | None => false end))
  /\ ((length p_data < nclass)%nat ->
      distribution_summary nclass p_data p_model p_target = Err ValueError).
Proof.
  intros Em Et. split; [now apply distribution_summary_runs|].
  unfold distribution_summary.
  destruct (@kl_runs p_data p_model) as [kld ->]; [congruence|].
  assert (Hkt : exists kt,
            match p_target with
            | Some t => match kl p_data t with
                        | Err e => Err e
                        | Ok k => Ok [("metrics/kld_target"%string, k)]
                        end
            | None => Ok []
            end = Ok kt).
  { destruct p_target as [t|]; [|eauto].
    destruct (@kl_runs p_data t) as [k ->]; [symmetry; now apply Et | eauto]. }
  destruct Hkt as (kt & ->).
  intros Hn. rewrite (@map_result_err _ _ _ ValueError); [reflexivity | |].
  - intros i _. destruct (Nat.lt_ge_cases i (length p_model)) as [Hi|Hi].
    + right. rewrite (@tf_index_ok p_model i s_zero) by lia.
      rewrite (@tf_index_ok p_data i s_zero) by lia. eauto.
    + left. now rewrite tf_index_err.
  - exists (length p_data). split; [apply in_seq; lia|].
    now rewrite tf_index_err by lia.
Qed.
End SummaryFacts.

Lemma distribution_summary_outcome_witness :
  (exists l, distribution_summary 2 [1; 3] [2; 2] (Some [1; 1]) = Ok l
             /\ map fst l = summary_tags 2 true)
  /\ distribution_summary 3 [1; 3] [2; 2] (Some [1; 1]) = Err ValueError.
Proof.
  destruct (@distribution_summary_outcome R _ 2%nat [1; 3] [2; 2] (Some [1; 1]))
    as [A _]; [reflexivity | now intros t [= <-] |].
  destruct (@distribution_summary_outcome R _ 3%nat [1; 3] [2; 2] (Some [1; 1]))
    as [_ B]; [reflexivity | now intros t [= <-] |].
  split; [apply A; simpl; lia | apply B; simpl; lia].
Defined.

(** X18: when the model distribution is the data distribution, the
    divergence written is 0 and every class ratio is 1. *)
Theorem perfect_match_summary (nclass : nat) (p : tensor1 R) :
  (0 < nclass)%nat -> length p = nclass -> Forall (fun x => 0 < x) p ->
  distribution_summary nclass p p None
  = Ok (("metrics/kld"%string, 0)
        :: map (fun i => (ratio_tag i, 1)) (seq 0 nclass)
        ++ map (fun i => (val_tag i, nth i p 0)) (seq 0 nclass)).
Proof.
  intros Hn El Hp. unfold distribution_summary.
  assert (Hne : p <> []) by (destruct p; simpl in *; [lia | discriminate]).
  rewrite kl_equal_lengths by reflexivity.
  rewrite (@map_result_ok _ _ _ (fun i => (ratio_tag i, 1))).
  - rewrite (@map_result_ok _ _ _ (fun i => (val_tag i, nth i p 0))).
    + simpl. do 3 f_equal.
      destruct (normalize_distribution Hne Hp) as [Pp _].
      assert (Z : forall l, Forall (fun x => 0 < x) l ->
                  sum_list (map2 (fun pi qi => pi * ln (qi / pi)) l l) = 0).
      { induction 1 as [|x l Hx _ IH]; [reflexivity|].
        change (map2 (fun pi qi => pi * ln (qi / pi)) (x :: l) (x :: l))
          with (x * ln (x / x) :: map2 (fun pi qi => pi * ln (qi / pi)) l l).
        change (sum_list (?u :: ?v)) with (u + sum_list v). rewrite IH.
        replace (x / x) with 1 by (field; lra). rewrite ln_1. lra. }
      rewrite (Z _ Pp). lra.
    + intros i Hi. apply in_seq in Hi. now rewrite tf_index_ok with (d := 0) by lia.
  - intros i Hi. apply in_seq in Hi. rewrite tf_index_ok with (d := 0) by lia.
    do 2 f_equal. simpl. field.
    rewrite Forall_forall in Hp. assert (0 < nth i p 0) by (apply Hp, nth_In; lia). lra.
Qed.

Lemma perfect_match_summary_witness :
  distribution_summary 2 [1 / 4; 3 / 4] [1 / 4; 3 / 4] None
  = Ok (("metrics/kld"%string, 0)
        :: map (fun i => (ratio_tag i, 1)) (seq 0 2)
        ++ map (fun i => (val_tag i, nth i [1 / 4; 3 / 4] 0)) (seq 0 2)).
Proof.
  apply perfect_match_summary; [lia | reflexivity | repeat constructor; lra].
Defined.

(** ** Tags *)

Lemma string_of_uint_inj (d d' : Decimal.uint) :
  string_of_uint d = string_of_uint d' -> d = d'.
Proof.
  revert d'. induction d; intros d'; destruct d'; simpl; intros E;
    try discriminate; try reflexivity;
    injection E as E; f_equal; now apply IHd.
Qed.

Lemma format_d_inj (i j : nat) : format_d i = format_d j -> i = j.
Proof.
  unfold format_d. intros E. now apply Unsigned.to_uint_inj, string_of_uint_inj.
Qed.

Lemma length_append (s t : string) :
  String.length (s ++ t) = (String.length s + String.length t)%nat.
Proof. induction s as [|c s IH]; simpl; [reflexivity | now rewrite IH]. Qed.

Lemma append_cancel_r (s s' t : string) : (s ++ t = s' ++ t)%string -> s = s'.
Proof.
  revert s'. induction s as [|c s IH]; intros s' E.
  - destruct s' as [|c' s']; [reflexivity|].
    apply (f_equal String.length) in E. simpl in E. rewrite length_append in E. lia.
  - destruct s' as [|c' s'].
    + apply (f_equal String.length) in E. simpl in E. rewrite length_append in E. lia.
    + simpl in E. injection E as -> E. f_equal. now apply IH.
Qed.

Lemma ratio_tag_inj (i j : nat) : ratio_tag i = ratio_tag j -> i = j.
Proof.
  unfold ratio_tag. simpl. intros E. repeat injection E as E.
  now apply format_d_inj, (append_cancel_r _ _ "_ratio").
Qed.

Lemma val_tag_inj (i j : nat) : val_tag i = val_tag j -> i = j.
Proof.
  unfold val_tag. simpl. intros E. repeat injection E as E.
  now apply format_d_inj.
Qed.

Lemma NoDup_map_inj {A B} (f : A -> B) (l : list A) :
  (forall x y, f x = f y -> x = y) -> NoDup l -> NoDup (map f l).
Proof.
  intros Hf Hl. induction Hl as [|a l Hn _ IH]; simpl; constructor; [|exact IH].
  intros Hin. apply in_map_iff in Hin. destruct Hin as (x & E & Hx).
  apply Hf in E. now subst.
Qed.

Lemma summary_tags_nodup (nclass : nat) (with_target : bool) :
  NoDup (summary_tags nclass with_target).
Proof.
  unfold summary_tags. apply NoDup_app.
  - repeat constructor. simpl. tauto.
  - apply NoDup_app.
    + destruct with_target; repeat constructor. simpl. tauto.
    + apply NoDup_app.
      * apply NoDup_map_inj; [apply ratio_tag_inj | apply seq_NoDup].
      * apply NoDup_map_inj; [apply val_tag_inj | apply seq_NoDup].
      * intros a Ha Hb. apply in_map_iff in Ha, Hb.
        destruct Ha as (i & <- & _), Hb as (j & E & _).
        unfold ratio_tag, val_tag in E. simpl in E. discriminate.
    + intros a Ha Hb. apply in_app_iff in Hb.
      destruct with_target; simpl in Ha; [|contradiction].
      destruct Ha as [<-|[]].
      destruct Hb as [Hb|Hb]; apply in_map_iff in Hb; destruct Hb as (j & E & _);
        unfold ratio_tag, val_tag in E; simpl in E; discriminate.
  - intros a Ha Hb. destruct Ha as [<-|[]].
    apply in_app_iff in Hb. destruct Hb as [Hb|Hb].
    + destruct with_target; simpl in Hb; [|contradiction].
      destruct Hb as [E|[]]. discriminate.
    + apply in_app_iff in Hb.
      destruct Hb as [Hb|Hb]; apply in_map_iff in Hb; destruct Hb as (j & E & _);
        unfold ratio_tag, val_tag in E; simpl in E; discriminate.
Qed.

(** X20: no two summaries of one call share a tag. *)
Theorem summary_tags_distinct {S : Type} `{Scalar S} (nclass : nat)
    (p_data p_model : tensor1 S) (p_target : option (tensor1 S)) l :
  distribution_summary nclass p_data p_model p_target = Ok l ->
  NoDup (map fst l).
Proof.
  unfold distribution_summary.
  destruct (kl p_data p_model) as [kld|]; [|discriminate].
  set (kt := match p_target with
             | Some t => match kl p_data t with
                         | Err e => Err e
                         | Ok k => Ok [("metrics/kld_target"%string, k)]
                         end
             | None => Ok []
             end).
  assert (Hkt : forall l0, kt = Ok l0 ->
            exists b, map fst l0 = if b : bool then ["metrics/kld_target"%string] else []).
  { unfold kt. destruct p_target as [t|].
    - destruct (kl p_data t); [|discriminate]. intros l0 [= <-]. now exists true.
    - intros l0 [= <-]. now exists false. }
  destruct kt as [l0|]; [|discriminate].
  destruct (Hkt l0 eq_refl) as [b Eb]. clear Hkt.
  assert (Hmap : forall (f : nat -> result (string * S)) (tag : nat -> string) idx r,
            (forall i y, f i = Ok y -> fst y = tag i) ->
            map_result f idx = Ok r -> map fst r = map tag idx).
  { intros f tag idx. induction idx as [|i idx IH]; intros r Hf; simpl.
    - now intros [= <-].
    - destruct (f i) as [y|] eqn:Ey; [|discriminate].
      destruct (map_result f idx) as [r'|]; [|discriminate].
      intros [= <-]. simpl. rewrite (Hf _ _ Ey). f_equal. now apply IH. }
  destruct (map_result _ (seq 0 nclass)) as [ratios|] eqn:Er; [|discriminate].
  destruct (map_result _ (seq 0 nclass)) as [vals|] eqn:Ev in |- *; [|discriminate].
  intros [= <-].
  apply (Hmap _ ratio_tag) in Er.
  2:{ intros i y. destruct (tf_index p_model i); [|discriminate].
      destruct (tf_index p_data i); [|discriminate]. now intros [= <-]. }
  apply (Hmap _ val_tag) in Ev.
  2:{ intros i y. destruct (tf_index p_model i); [|discriminate]. now intros [= <-]. }
  cbn [app map fst]. rewrite !map_app, Eb, Er, Ev.
  exact (summary_tags_nodup nclass b).
Qed.

Lemma summary_tags_distinct_witness :
  exists l, distribution_summary 2 [1 / 4; 3 / 4] [1 / 4; 3 / 4] None = Ok l
            /\ NoDup (map fst l).
Proof.
  destruct (@distribution_summary_runs R _ 2%nat [1 / 4; 3 / 4] [1 / 4; 3 / 4] None)
    as (l & E & _); [reflexivity | discriminate | simpl; lia |].
  exists l. split; [exact E|]. exact (summary_tags_distinct _ _ _ _ E).
Defined.

(** ** The properties above on the small instance *)

Lemma ex_views_shape :
  Forall (fun v => shape2 2 2 (ex_classifier [] true v)) [[3; 5]; [4; 6]]%nat.
Proof. repeat constructor. Qed.

Lemma p_model_rows_are_distributions_witness :
  exists r g',
    guess_label 2 [[3; 5]; [4; 6]]%nat (classifier ex_classifier 2 []) (1 / 2) ex_graph
    = Ok (r, g')
    /\ sum_list (nth 0%nat (p_model r) []) = 1.
Proof.
  destruct (p_model_rows_are_distributions (nclass := 2) (ex_classifier [] true)
              (classifier ex_classifier 2 []) ex_classifier_runs
              (views := [[3; 5]; [4; 6]]%nat) (B := 2) (T := 1 / 2) ex_graph)
    as (r & g' & E & Hrow).
  - lra.
  - discriminate.
  - lia.
  - exact ex_views_shape.
  - exists r, g'. split; [exact E|]. apply (Hrow 0%nat). lia.
Defined.

Lemma identical_views_guess_witness :
  exists r g',
    guess_label 2 [[3; 5]; [3; 5]]%nat (classifier ex_classifier 2 []) (1 / 2) ex_graph
    = Ok (r, g')
    /\ p_model r = tf_softmax [[3; 0]; [5; 0]].
Proof.
  destruct (identical_views_guess (nclass := 2) (ex_classifier [] true)
              (classifier ex_classifier 2 []) ex_classifier_runs
              (views := [[3; 5]; [3; 5]]%nat) (z := [[3; 0]; [5; 0]]) (B := 2)
              (T := 1 / 2) ex_graph)
    as (r & g' & E & Em & _).
  - lra.
  - discriminate.
  - lia.
  - repeat constructor.
  - repeat constructor.
  - exists r, g'. split; [exact E | exact Em].
Defined.

Lemma sharpening_keeps_ranking_witness :
  exists r g',
    guess_label 2 [[3; 5]; [4; 6]]%nat (classifier ex_classifier 2 []) (1 / 2) ex_graph
    = Ok (r, g')
    /\ (entry (p_model r) 0 1 <= entry (p_model r) 0 0 ->
        entry (p_target r) 0 1 <= entry (p_target r) 0 0).
Proof.
  destruct (sharpening_keeps_ranking (nclass := 2) (ex_classifier [] true)
              (classifier ex_classifier 2 []) ex_classifier_runs
              (views := [[3; 5]; [4; 6]]%nat) (B := 2) (T := 1 / 2) ex_graph)
    as (r & g' & E & Hrank).
  - lra.
  - discriminate.
  - lia.
  - exact ex_views_shape.
  - exists r, g'. split; [exact E|]. apply Hrank; lia.
Defined.

Lemma sharpening_and_the_top_class_witness :
  exists r g',
    guess_label 2 [[3; 5]; [4; 6]]%nat (classifier ex_classifier 2 []) (1 / 2) ex_graph
    = Ok (r, g')
    /\ ((forall c', (c' < 2)%nat -> entry (p_model r) 0 c' <= entry (p_model r) 0 0) ->
        entry (p_model r) 0 0 <= entry (p_target r) 0 0).
Proof.
  destruct (sharpening_and_the_top_class (nclass := 2) (ex_classifier [] true)
              (classifier ex_classifier 2 []) ex_classifier_runs
              (views := [[3; 5]; [4; 6]]%nat) (B := 2) (T := 1 / 2) ex_graph)
    as (r & g' & E & Htop).
  - lra.
  - discriminate.
  - lia.
  - exact ex_views_shape.
  - exists r, g'. split; [exact E|]. intros Hmax.
    apply (Htop 0%nat 0%nat); [lia | lia | exact Hmax | lra].
Defined.

Lemma sharpen_twice_witness :
  exists q q',
    sharpen [[1 / 4; 3 / 4]] (1 / 2) = Ok q
    /\ sharpen q 2 = Ok q'
    /\ sharpen [[1 / 4; 3 / 4]] (1 / 2 * 2) = Ok q'.
Proof.
  apply sharpen_twice; [lra | lra |]. repeat constructor; lra.
Defined.

Lemma reserved_keywords_rejected_witness :
  model 2 ex_classifier 2 ex_MixMode ex_model_vars false ex_cfg_training ex_feed ex_graph
  = Err TypeError.
Proof.
  eapply (proj2 (reserved_keywords_rejected 2 ex_classifier 2 ex_MixMode ex_model_vars
                   false ex_cfg_training ex_feed ex_graph (k := "training")
                   ltac:(simpl; tauto) eq_refl))
    with (b := 2%nat).
  - simpl. lia.
  - simpl. lia.
  - reflexivity.
  - split; [reflexivity | repeat constructor].
Defined.

Lemma negative_batch_rejected_witness :
  model_with 2 ex_classifier 2 ex_MixMode ex_model_vars false (guess_label 2)
             ex_cfg_negative_batch ex_feed ex_graph
  = Err ValueError.
Proof. apply negative_batch_rejected. simpl. lia. Defined.

Lemma step_registers_update_ops_witness :
  exists out g1,
    model 2 ex_classifier 2 ex_MixMode ex_model_vars false ex_cfg ex_feed ex_graph
    = Ok (out, g1)
    /\ update_ops g1 = seq 0 10 /\ next_op g1 = 10%nat.
Proof.
  destruct ex_run as (out & g1 & E). exists out, g1. split; [exact E|].
  destruct (step_registers_update_ops 2 ex_classifier 2 ex_MixMode ex_model_vars false
              ex_cfg ex_feed ex_graph (augment := fun xs ls _ => (xs, ls))
              eq_refl (fun _ _ _ => eq_refl) E) as (E1 & E2 & _).
  split; [exact E1 | exact E2].
Defined.


